(** * Verification of the object-construction core of [afb]

    Shallow embedding of [afb/utils/algorithms.py] (PostorderDFS),
    [afb/core/specs/obj_.py], [afb/core/specs/type_.py],
    [afb/core/factory.py] and [afb/core/manufacturer.py]. *)

From Stdlib Require Import String Ascii List ZArith Bool Lia.
From stdpp Require Import base gmap list strings.
Import ListNotations.
#[local] Set Warnings "-register-all".


(** ** Python classes

    The classes the core distinguishes, with single inheritance for user
    classes.  [CObjectSpec] and [CFnCall] are [afb]'s own [ObjectSpec]
    and [FnCall]. *)
Inductive cls :=
| CObject | CNoneType | CInt | CBool | CStr | CList | CTuple | CDict
| CObjectSpec | CFnCall
| CUser (name : string) (base : cls).

Global Instance cls_eq_dec : EqDecision cls.
Proof. solve_decision. Defined.

Definition cls_eqb (c d : cls) : bool := bool_decide (c = d).

(** [issubclass(c, d)] *)
Fixpoint issubclass (c d : cls) : bool :=
  cls_eqb c d ||
  match c with
  | CObject => false
  | CBool => cls_eqb d CInt || cls_eqb d CObject
  | CUser _ b => issubclass b d
  | _ => cls_eqb d CObject
  end.

(** ** Python exceptions raised by the core *)
Inductive exc :=
| ArgumentError (reason : string) (names : list string)
| SignatureError (reason : string) (names : list string)
| KeyConflictError (keys : list string)
| InvalidFormatError
| GraphError
| KeyError (reason : string)
| ValueError
| AttributeError
| AssertionError
| IndexError
(** the [TypeError] of [Factory.__call__]: expected class, actual class *)
| OutputTypeError (expected actual : cls)
(** any other [TypeError] *)
| TypeError (reason : string)
(** an exception raised by a user callable *)
| UserException (tag : nat).

(** ** [afb/utils/algorithms.py]: [PostorderDFS] *)
Module Algorithms.

(** A Python generator: the items it yields, then [None] for
    [StopIteration] or [Some e] when it raises [e] instead. *)
Record gen (A : Type) := Gen { gen_items : list A; gen_raise : option exc }.
Arguments Gen {A} _ _.
Arguments gen_items {A} _.
Arguments gen_raise {A} _.

(** [ProcResult]: [ItemResult(item)] or [NodeResult(fuse_fn, items)].
    Fuse functions and the step function may have effects on a state [St]
    and may raise. *)
Inductive proc_result (A R St : Type) :=
| ItemResult (item : R)
| NodeResult (fuse_fn : list R -> St -> (exc + R) * St) (items : gen A).
Arguments ItemResult {A R St} _.
Arguments NodeResult {A R St} _ _.

(** [PostorderDFSNode]: fuse function, pending items, collected results. *)
Record node (A R St : Type) := Node {
  nd_fuse : list R -> St -> (exc + R) * St;
  nd_items : gen A;
  nd_fuse_items : list R }.
Arguments Node {A R St} _ _ _.
Arguments nd_fuse {A R St} _.
Arguments nd_items {A R St} _.
Arguments nd_fuse_items {A R St} _.

Inductive step_out (A R St : Type) :=
| Continue (stack : list (node A R St)) (result : R) (st : St)
| Halt (out : exc + R) (st : St).
Arguments Continue {A R St} _ _ _.
Arguments Halt {A R St} _ _.

Section PostorderDFS.
Context {A R St : Type}.
Variable proc_fn : A -> St -> (exc + proc_result A R St) * St.
(** Python's [None], the initial value of [result]. *)
Variable none : R.

(** [node.add(item)] *)
Definition add (nd : node A R St) (r : R) : node A R St :=
  Node (nd_fuse nd) (nd_items nd) (nd_fuse_items nd ++ [r]).

(** One iteration of the [while stack:] loop of [PostorderDFS.__call__];
    the top of the stack is the head of the list. *)
Definition step (stack : list (node A R St)) (result : R) (st : St)
  : step_out A R St :=
  match stack with
  | [] => Halt (inr result) st
  | nd :: rest =>
      match gen_items (nd_items nd) with
      | [] =>
          match gen_raise (nd_items nd) with
          | Some e => Halt (inl e) st
          | None =>
              (* StopIteration: pop, fuse, hand the result to the parent *)
              let (r, st') := nd_fuse nd (nd_fuse_items nd) st in
              match r with
              | inl e => Halt (inl e) st'
              | inr v =>
                  match rest with
                  | [] => Continue [] v st'
                  | p :: rest' => Continue (add p v :: rest') v st'
                  end
              end
          end
      | item :: more =>
          let nd' := Node (nd_fuse nd) (Gen more (gen_raise (nd_items nd)))
                          (nd_fuse_items nd) in
          let (pr, st') := proc_fn item st in
          match pr with
          | inl e => Halt (inl e) st'
          | inr (ItemResult v) => Continue (add nd' v :: rest) result st'
          | inr (NodeResult f g) => Continue (Node f g [] :: nd' :: rest) result st'
          end
      end
  end.

(** The [while] loop, run for at most [fuel] iterations ([None]: the
    fuel ran out; Python has no such bound). *)
Fixpoint loop (fuel : nat) (stack : list (node A R St)) (result : R) (st : St)
  : option ((exc + R) * St) :=
  match fuel with
  | 0 => None
  | S n =>
      match step stack result st with
      | Continue stack' result' st' => loop n stack' result' st'
      | Halt out st' => Some (out, st')
      end
  end.

(** The seed frame [PostorderDFSNode(lambda *x: x[0], (seed,))]. *)
Definition root_fuse (xs : list R) (st : St) : (exc + R) * St :=
  (match xs with x :: _ => inr x | [] => inl IndexError end, st).

Definition root_node (seed : A) : node A R St := Node root_fuse (Gen [seed] None) [].

(** [PostorderDFS(proc_fn)(seed)] *)
Definition postorder_dfs (fuel : nat) (seed : A) (st : St) : option ((exc + R) * St) :=
  loop fuel [root_node seed] none st.

(** The recursive postorder fold: a terminal item evaluates to the item
    the step function returns, a node to its fuse function applied to the
    results of its children in order; the first exception wins. *)
Inductive eval : A -> St -> exc + R -> St -> Prop :=
| ev_raise a st e st' :
    proc_fn a st = (inl e, st') -> eval a st (inl e) st'
| ev_item a st v st' :
    proc_fn a st = (inr (ItemResult v), st') -> eval a st (inr v) st'
| ev_node_raise a st f g st1 e st2 :
    proc_fn a st = (inr (NodeResult f g), st1) ->
    eval_gen (gen_items g) (gen_raise g) st1 (inl e) st2 ->
    eval a st (inl e) st2
| ev_node a st f g st1 vs st2 :
    proc_fn a st = (inr (NodeResult f g), st1) ->
    eval_gen (gen_items g) (gen_raise g) st1 (inr vs) st2 ->
    eval a st (fst (f vs st2)) (snd (f vs st2))
with eval_gen : list A -> option exc -> St -> exc + list R -> St -> Prop :=
| eg_stop st : eval_gen [] None st (inr []) st
| eg_raise e st : eval_gen [] (Some e) st (inl e) st
| eg_cons_raise a l oe st e st' :
    eval a st (inl e) st' -> eval_gen (a :: l) oe st (inl e) st'
| eg_cons a l oe st v st1 vs st2 :
    eval a st (inr v) st1 -> eval_gen l oe st1 (inr vs) st2 ->
    eval_gen (a :: l) oe st (inr (v :: vs)) st2
| eg_cons_raise_later a l oe st v st1 e st2 :
    eval a st (inr v) st1 -> eval_gen l oe st1 (inl e) st2 ->
    eval_gen (a :: l) oe st (inl e) st2.


Scheme eval_mut := Induction for eval Sort Prop
  with eval_gen_mut := Induction for eval_gen Sort Prop.
Combined Scheme eval_both from eval_mut, eval_gen_mut.

(** [c1] leads to [c2] after finitely many iterations of the loop. *)
Definition reach (stk : list (node A R St)) (r : R) (st : St)
    (stk' : list (node A R St)) (r' : R) (st' : St) : Prop :=
  exists k, forall n, loop (k + n) stk r st = loop n stk' r' st'.

(** The loop started at [stk] returns [out] once given enough fuel. *)
Definition halts (stk : list (node A R St)) (r : R) (st : St)
    (out : (exc + R) * St) : Prop :=
  exists k, forall n, loop (k + n) stk r st = Some out.

End PostorderDFS.
End Algorithms.

(** ** Type specifications and Python values *)

(** [TypeSpec]: [_ClassTypeSpec], [_ListTypeSpec], [_DictTypeSpec],
    [_TupleTypeSpec]. *)
Inductive typespec :=
| TSClass (c : cls)
| TSList (entry : typespec)
| TSDict (key value : typespec)
| TSTuple (entries : list typespec).

(** The function held by an [FnCall]: [ts.pack], or the bound method
    [fct.call_as_fuse_fn] of a factory with target class [c] wrapping the
    user callable [fn]. *)
Inductive fnref :=
| FPack (ts : typespec)
| FFactory (c : cls) (fn : nat).

Fixpoint typespec_eq_dec (t1 t2 : typespec) : {t1 = t2} + {t1 <> t2}.
Proof.
  decide equality; [apply cls_eq_dec | apply (List.list_eq_dec typespec_eq_dec)].
Defined.

Global Instance typespec_eq_decision : EqDecision typespec := typespec_eq_dec.

Global Instance fnref_eq_dec : EqDecision fnref.
Proof. solve_decision. Defined.

(** Python values.  [VInst c id] is an instance of a user class, [id] its
    identity; [VSpec raw key inputs] an [ObjectSpec]; [VCall fn args] an
    [FnCall]. *)
Inductive pyval :=
| VNone
| VBool (b : bool)
| VInt (z : Z)
| VStr (s : string)
| VList (l : list pyval)
| VTuple (l : list pyval)
| VDict (kvs : list (pyval * pyval))
| VInst (c : cls) (id : nat)
| VSpec (raw key inputs : pyval)
| VCall (fn : fnref) (args : list pyval).

(** [type(v)] *)
Definition type_of (v : pyval) : cls :=
  match v with
  | VNone => CNoneType
  | VBool _ => CBool
  | VInt _ => CInt
  | VStr _ => CStr
  | VList _ => CList
  | VTuple _ => CTuple
  | VDict _ => CDict
  | VInst c _ => c
  | VSpec _ _ _ => CObjectSpec
  | VCall _ _ => CFnCall
  end.

(** [isinstance(v, c)] *)
Definition isinstance (v : pyval) (c : cls) : bool := issubclass (type_of v) c.

Definition num_of (v : pyval) : option Z :=
  match v with
  | VBool b => Some (if b then 1 else 0)%Z
  | VInt z => Some z
  | _ => None
  end.

(** [v == w]: numbers by value ([True == 1]), containers element-wise,
    instances of user classes by identity.  [ObjectSpec] and [FnCall]
    define no [__eq__] (identity in Python); they are compared
    structurally here. *)
Fixpoint pyval_eqb (v w : pyval) : bool :=
  let fix list_eqb (l1 l2 : list pyval) : bool :=
    match l1, l2 with
    | [], [] => true
    | x :: l1', y :: l2' => pyval_eqb x y && list_eqb l1' l2'
    | _, _ => false
    end in
  let fix pairs_eqb (l1 l2 : list (pyval * pyval)) : bool :=
    match l1, l2 with
    | [], [] => true
    | (k1, x1) :: l1', (k2, x2) :: l2' =>
        pyval_eqb k1 k2 && pyval_eqb x1 x2 && pairs_eqb l1' l2'
    | _, _ => false
    end in
  match v, w with
  | VNone, VNone => true
  | (VBool _ | VInt _), (VBool _ | VInt _) =>
      match num_of v, num_of w with
      | Some a, Some b => Z.eqb a b
      | _, _ => false
      end
  | VStr s, VStr t => String.eqb s t
  | VList l1, VList l2 => list_eqb l1 l2
  | VTuple l1, VTuple l2 => list_eqb l1 l2
  | VDict l1, VDict l2 => pairs_eqb l1 l2
  | VInst c i, VInst d j => cls_eqb c d && Nat.eqb i j
  | VSpec r1 k1 i1, VSpec r2 k2 i2 =>
      pyval_eqb r1 r2 && pyval_eqb k1 k2 && pyval_eqb i1 i2
  | VCall f1 a1, VCall f2 a2 => bool_decide (f1 = f2) && list_eqb a1 a2
  | _, _ => false
  end.

(** Values usable as [dict] keys. *)
Fixpoint hashable (v : pyval) : bool :=
  match v with
  | VList _ | VDict _ => false
  | VTuple l => forallb hashable l
  | _ => true
  end.

(** [d[k] = v] on a [dict] as a list of its items in insertion order: an
    existing key keeps its position. *)
Fixpoint dict_set (kvs : list (pyval * pyval)) (k v : pyval)
  : list (pyval * pyval) :=
  match kvs with
  | [] => [(k, v)]
  | (k', v') :: rest =>
      if pyval_eqb k' k then (k', v) :: rest else (k', v') :: dict_set rest k v
  end.

(** [d.get(k)] *)
Fixpoint dict_get (kvs : list (pyval * pyval)) (k : pyval) : option pyval :=
  match kvs with
  | [] => None
  | (k', v') :: rest => if pyval_eqb k' k then Some v' else dict_get rest k
  end.

(** Keyword-argument dicts: string keys, insertion order. *)
Abbreviation kwargs := (list (string * pyval)).

(** [kw[k] = v] *)
Fixpoint kw_set (kw : kwargs) (k : string) (v : pyval) : kwargs :=
  match kw with
  | [] => [(k, v)]
  | (k', v') :: rest =>
      if String.eqb k' k then (k', v) :: rest else (k', v') :: kw_set rest k v
  end.

(** [d.update(kw)] *)
Definition kw_update (d kw : kwargs) : kwargs :=
  fold_left (fun acc kv => kw_set acc kv.1 kv.2) kw d.

(** The [dict] object of a keyword-argument dict. *)
Definition kwargs_val (kw : kwargs) : pyval :=
  VDict (map (fun kv => (VStr kv.1, kv.2)) kw).

(** ** [afb/core/specs/obj_.py] *)
Module ObjSpec.

(** [v] is the string [s]. *)
Definition is_str (s : string) (v : pyval) : bool :=
  match v with VStr t => String.eqb s t | _ => false end.

(** Modelled from the spec: [set(obj) == const.KEY_INPUTS].  The module
    [afb/utils/const.py] is not among the sources; [const.KEY_INPUTS] is
    taken as the set [{"key", "inputs"}] of the two-entry object-spec form
    ([ObjectSpec] docstring, [ObjectSpec.as_dict]). *)
Definition keys_are_key_inputs (kvs : list (pyval * pyval)) : bool :=
  forallb (fun kv => is_str "key" kv.1 || is_str "inputs" kv.1) kvs &&
  existsb (fun kv => is_str "key" kv.1) kvs &&
  existsb (fun kv => is_str "inputs" kv.1) kvs.

(** [is_object_spec(obj)]: shallow format check. *)
Definition is_object_spec (obj : pyval) : bool :=
  match obj with
  | VSpec _ _ _ => true
  | VDict kvs =>
      match kvs with
      | [(k, _)] => match k with VStr _ => true | _ => false end
      | [_; _] => keys_are_key_inputs kvs
      | _ => false
      end
  | _ => false
  end.

(** [is_direct_object(obj, cls)] *)
Definition is_direct_object (obj : pyval) (c : cls) : bool :=
  match obj with
  | VNone => true
  | _ =>
      if negb (isinstance obj c) then false
      else if negb (cls_eqb c CDict) then true
      else negb (is_object_spec obj)
  end.

(** [ObjectSpec.parse(spec)]: [ObjectSpec(raw, key, inputs)]. *)
Definition parse (spec : pyval) : exc + pyval :=
  match spec with
  | VSpec _ _ _ => inr spec
  | _ =>
      if negb (is_object_spec spec) then inl InvalidFormatError
      else match spec with
           | VDict [(k, i)] => inr (VSpec spec k i)
           | VDict kvs =>
               (* [cls(spec, **spec)] *)
               match dict_get kvs (VStr "key"), dict_get kvs (VStr "inputs") with
               | Some k, Some i => inr (VSpec spec k i)
               | _, _ => inl (TypeError "missing argument")
               end
           | _ => inl InvalidFormatError
           end
  end.

End ObjSpec.

(** ** [afb/core/specs/type_.py] *)
Module TypeSpecs.

(** Items of the execution-tree construction ([Manufacturer._create_exec_tree]):
    the pairs [(ts_or_cls, obj_or_spec)] with [ts_or_cls] [None], a
    [TypeSpec] or a class. *)
Inductive citem :=
| CINone (v : pyval)
| CITS (ts : typespec) (m : pyval)
| CICls (c : cls) (m : pyval).

Abbreviation gen := (Algorithms.gen citem).

(** Modelled from the spec: [set(pair) == const.KEY_VALUE], with
    [const.KEY_VALUE] taken as [{"key", "value"}] ([TypeSpec] docstring;
    [afb/utils/const.py] is not among the sources). *)
Definition keys_are_key_value (kvs : list (pyval * pyval)) : bool :=
  (length kvs =? 2) &&
  forallb (fun kv => ObjSpec.is_str "key" kv.1 || ObjSpec.is_str "value" kv.1) kvs &&
  existsb (fun kv => ObjSpec.is_str "key" kv.1) kvs &&
  existsb (fun kv => ObjSpec.is_str "value" kv.1) kvs.

(** The loop of [_DictTypeSpec.parse_manifest] over the pairs. *)
Fixpoint dict_pairs (ks vs : typespec) (pairs : list pyval) : list citem * option exc :=
  match pairs with
  | [] => ([], None)
  | pr :: rest =>
      let kv :=
        match pr with
        | VTuple [k; v] | VList [k; v] => Some (k, v)
        | VDict kvs =>
            if keys_are_key_value kvs then
              match dict_get kvs (VStr "key"), dict_get kvs (VStr "value") with
              | Some k, Some v => Some (k, v)
              | _, _ => None
              end
            else None
        | _ => None
        end in
      match kv with
      | None => ([], Some InvalidFormatError)
      | Some (k, v) =>
          let (items, err) := dict_pairs ks vs rest in
          (CITS ks k :: CITS vs v :: items, err)
      end
  end.

(** [TypeSpec.parse_manifest(manifest)], a generator. *)
Definition parse_manifest (ts : typespec) (manifest : pyval) : gen :=
  match ts with
  | TSClass c =>
      if ObjSpec.is_direct_object manifest c then Algorithms.Gen [CICls c manifest] None
      else match ObjSpec.parse manifest with
           | inl e => Algorithms.Gen [] (Some e)
           | inr obj_spec => Algorithms.Gen [CICls c obj_spec] None
           end
  | TSList t =>
      match manifest with
      | VList l | VTuple l => Algorithms.Gen (map (CITS t) l) None
      | _ => Algorithms.Gen [] (Some InvalidFormatError)
      end
  | TSDict ks vs =>
      let iterable :=
        match manifest with
        | VDict kvs => Some (map (fun kv => VTuple [kv.1; kv.2]) kvs)
        | VList l | VTuple l => Some l
        | _ => None
        end in
      match iterable with
      | None => Algorithms.Gen [] (Some InvalidFormatError)
      | Some pairs =>
          let (items, err) := dict_pairs ks vs pairs in Algorithms.Gen items err
      end
  | TSTuple specs =>
      match manifest with
      | VList l | VTuple l =>
          if length l =? length specs
          then Algorithms.Gen (zip_with CITS specs l) None
          else Algorithms.Gen [] (Some InvalidFormatError)
      | _ => Algorithms.Gen [] (Some InvalidFormatError)
      end
  end.

(** The dict comprehension of [_DictTypeSpec.pack]. *)
Fixpoint pack_dict (acc : list (pyval * pyval)) (inputs : list pyval)
  : exc + list (pyval * pyval) :=
  match inputs with
  | k :: v :: rest =>
      if hashable k then pack_dict (dict_set acc k v) rest
      else inl (TypeError "unhashable type")
  | _ => inr acc
  end.

(** [TypeSpec.pack( *inputs)] *)
Definition pack (ts : typespec) (inputs : list pyval) : exc + pyval :=
  match ts with
  | TSClass _ =>
      match inputs with x :: _ => inr x | [] => inl IndexError end
  | TSList _ => inr (VTuple inputs)   (* [return inputs]: the args tuple *)
  | TSDict _ _ =>
      if Nat.even (length inputs)
      then match pack_dict [] inputs with
           | inl e => inl e
           | inr kvs => inr (VDict kvs)
           end
      else inl AssertionError
  | TSTuple _ => inr (VTuple inputs)
  end.

End TypeSpecs.

(** ** [afb/core/factory.py] *)

(** Ordered dicts with string keys ([collections.OrderedDict]). *)
Section OrderedDict.
Context {V : Type}.

Fixpoint od_get (od : list (string * V)) (k : string) : option V :=
  match od with
  | [] => None
  | (k', v) :: rest => if String.eqb k' k then Some v else od_get rest k
  end.

(** [od[k] = v]: an existing key keeps its position. *)
Fixpoint od_set (od : list (string * V)) (k : string) (v : V) : list (string * V) :=
  match od with
  | [] => [(k, v)]
  | (k', v') :: rest =>
      if String.eqb k' k then (k', v) :: rest else (k', v') :: od_set rest k v
  end.

(** [od.pop(k)] for a present key; [None] when [k] is absent. *)
Fixpoint od_pop (od : list (string * V)) (k : string) : option (V * list (string * V)) :=
  match od with
  | [] => None
  | (k', v) :: rest =>
      if String.eqb k' k then Some (v, rest)
      else match od_pop rest k with
           | Some (v', rest') => Some (v', (k', v) :: rest')
           | None => None
           end
  end.

End OrderedDict.

Definition str_mem (k : string) (l : list string) : bool := existsb (String.eqb k) l.

(** [not l]: the list is empty. *)
Definition null {A : Type} (l : list A) : bool := match l with [] => true | _ => false end.

(** [ParameterSpec]: the parsed type spec, the description and the
    [required] flag. *)
Record param_spec := ParameterSpec {
  ps_type : typespec;
  ps_description : string;
  ps_required : bool }.

(** [Signature(ordered_param_specs, required)] *)
Record signature := Signature {
  sig_specs : list (string * param_spec);
  sig_required : list string }.

(** [Signature.names] *)
Definition sig_names (s : signature) : list string := map fst (sig_specs s).

(** The namedtuple [fn_util.FnArgSpec] of a callable, as [_from_fn]
    computes it ([FnArgSpec.parse], which [Signature.create] calls, is not
    among the sources): parameters without default ([required]), parameters with
    a default ([optional]), and whether there is a [**kwargs] sink. *)
Record fn_arg_spec := FnArgSpec {
  fas_required : list string;
  fas_optional : list string;
  fas_kwargs : bool }.

(** [[optional, required][ps.required][k] = ps] *)
Definition place (acc : list (string * param_spec) * list (string * param_spec))
    (kp : string * param_spec) : list (string * param_spec) * list (string * param_spec) :=
  let (required, optional) := acc in
  if ps_required kp.2 then (od_set required kp.1 kp.2, optional)
  else (required, od_set optional kp.1 kp.2).

(** The loop over [fn_arg_spec.required]: (required, missing, remaining
    param specs). *)
Fixpoint take_required (ks : list string) (required : list (string * param_spec))
    (missing : list string) (param_specs : list (string * param_spec))
  : list (string * param_spec) * list string * list (string * param_spec) :=
  match ks with
  | [] => (required, missing, param_specs)
  | k :: ks' =>
      match od_pop param_specs k with
      | Some (ps, rest) => take_required ks' (od_set required k ps) missing rest
      | None => take_required ks' required (missing ++ [k]) param_specs
      end
  end.

(** The loop over [fn_arg_spec.optional]. *)
Fixpoint take_optional (ks : list string)
    (acc : list (string * param_spec) * list (string * param_spec))
    (param_specs : list (string * param_spec))
  : list (string * param_spec) * list (string * param_spec) * list (string * param_spec) :=
  match ks with
  | [] => (acc.1, acc.2, param_specs)
  | k :: ks' =>
      match od_pop param_specs k with
      | Some (ps, rest) => take_optional ks' (place acc (k, ps)) rest
      | None => take_optional ks' acc param_specs
      end
  end.

(** [Signature.create(fn, param_specs)], [fn] given by its [FnArgSpec] and
    the declared specs already [ParameterSpec]s ([ParameterSpec.parse]
    returns those unchanged). *)
Definition signature_create (fas : fn_arg_spec) (param_specs : list (string * param_spec))
  : exc + signature :=
  let '(required, missing, specs1) := take_required (fas_required fas) [] [] param_specs in
  if negb (null missing) then inl (SignatureError "Missing required parameters" missing)
  else
    let '(required, optional, specs2) := take_optional (fas_optional fas) (required, []) specs1 in
    if negb (null specs2) && negb (fas_kwargs fas)
    then inl (SignatureError "No such parameters" (map fst specs2))
    else
      let '(required, optional) := fold_left place specs2 (required, optional) in
      let ordered := fold_left (fun od kp => od_set od kp.1 kp.2) optional required in
      inr (Signature ordered (map fst required)).

(** [Factory]: target class, the wrapped user callable (by identity),
    signature and defaults. *)
Record factory := Factory {
  fct_cls : cls;
  fct_fn : nat;
  fct_sig : signature;
  fct_defaults : kwargs }.

(** [Factory.merge_inputs( **kwargs)]; the name lists of the errors are the
    sets the source reports (unsorted here). *)
Definition merge_inputs (f : factory) (kw : kwargs) : exc + kwargs :=
  let merged := kw_update (fct_defaults f) kw in
  let merged_names := map fst merged in
  let inv_args := List.filter (fun k => negb (str_mem k (sig_names (fct_sig f)))) merged_names in
  if negb (null inv_args) then inl (ArgumentError "Invalid arguments" inv_args)
  else
    let missing := List.filter (fun k => negb (str_mem k merged_names)) (sig_required (fct_sig f)) in
    if negb (null missing) then inl (ArgumentError "Missing required arguments" missing)
    else inr merged.

(** [f( **d)]: the items of a dict as keyword arguments. *)
Fixpoint kwargs_of_items (kvs : list (pyval * pyval)) : exc + kwargs :=
  match kvs with
  | [] => inr []
  | (VStr k, v) :: rest =>
      match kwargs_of_items rest with
      | inl e => inl e
      | inr kw => inr ((k, v) :: kw)
      end
  | _ :: _ => inl (TypeError "keywords must be strings")
  end.

(** The loop of [Factory.parse_inputs]: [yield None, k] then
    [yield self._sig[k].type, v]. *)
Fixpoint input_items (sig : signature) (merged : kwargs) : list TypeSpecs.citem * option exc :=
  match merged with
  | [] => ([], None)
  | (k, v) :: rest =>
      match od_get (sig_specs sig) k with
      | None => ([TypeSpecs.CINone (VStr k)], Some (KeyError k))
      | Some ps =>
          let (items, err) := input_items sig rest in
          (TypeSpecs.CINone (VStr k) :: TypeSpecs.CITS (ps_type ps) v :: items, err)
      end
  end.

Definition gen_of_merged (f : factory) (kw : kwargs) : TypeSpecs.gen :=
  match merge_inputs f kw with
  | inl e => Algorithms.Gen [] (Some e)
  | inr merged => let (items, err) := input_items (fct_sig f) merged in Algorithms.Gen items err
  end.

(** [Factory.parse_inputs(inputs)], a generator: nothing runs before the
    first [next]. *)
Definition parse_inputs (f : factory) (inputs : pyval) : TypeSpecs.gen :=
  match inputs with
  | VNone => gen_of_merged f []
  | VDict kvs =>
      match kwargs_of_items kvs with
      | inl e => Algorithms.Gen [] (Some e)
      | inr kw => gen_of_merged f kw
      end
  | _ => Algorithms.Gen [] (Some AssertionError)
  end.

(** The calls made to user callables: callable and keyword arguments. *)
Abbreviation log := (list (nat * kwargs)).

(** [fn_util.varargs_to_kwargs( *args)] *)
Definition varargs_to_kwargs (args : list pyval) : exc + list (pyval * pyval) :=
  if Nat.odd (length args) then inl (ArgumentError "Number of inputs must be even" [])
  else TypeSpecs.pack_dict [] args.

Section FactoryCall.
(** The user callables: [py_call fn kw] is what [fn( **kw)] returns or
    raises. *)
Variable py_call : nat -> kwargs -> exc + pyval.

(** [Factory.__call__( **kwargs)] of a factory with target class [c]
    wrapping [fn]. *)
Definition factory_call (c : cls) (fn : nat) (kw : kwargs) (lg : log) : (exc + pyval) * log :=
  let lg' := lg ++ [(fn, kw)] in
  match py_call fn kw with
  | inl e => (inl e, lg')
  | inr instance =>
      if isinstance instance c then (inr instance, lg')
      else (inl (OutputTypeError c (type_of instance)), lg')
  end.

(** [Factory.call_as_fuse_fn( *args)] *)
Definition call_as_fuse_fn (c : cls) (fn : nat) (args : list pyval) (lg : log)
  : (exc + pyval) * log :=
  match varargs_to_kwargs args with
  | inl e => (inl e, lg)
  | inr kvs =>
      match kwargs_of_items kvs with
      | inl e => (inl e, lg)
      | inr kw => factory_call c fn kw lg
      end
  end.

End FactoryCall.

(** ** [afb/utils/misc.py] *)

(** [name.split(SEP)[0]] with [SEP = "/"] *)
Fixpoint first_seg (s : string) : string :=
  match s with
  | EmptyString => EmptyString
  | String ch rest => if Ascii.eqb ch "/"%char then EmptyString else String ch (first_seg rest)
  end.

(** [misc.is_reserved(name)] on a string *)
Definition is_reserved (name : string) : bool := String.eqb (first_seg name) "afb".

(** ** [afb/core/manufacturer.py] *)

(** [Manufacturer]: target class, builtin and user factories, default key.
    Its weak reference to a [Broker] is the [option broker] passed to
    [make]. *)
Record manufacturer := Manufacturer {
  m_cls : cls;
  m_builtin_fcts : gmap string factory;
  m_user_fcts : gmap string factory;
  m_default : option string }.

Definition set_user_fcts (m : manufacturer) (u : gmap string factory) : manufacturer :=
  Manufacturer (m_cls m) (m_builtin_fcts m) u (m_default m).

(** [Manufacturer.keys()]: the keys of the user factories. *)
Definition keys (m : manufacturer) : list string := map fst (map_to_list (m_user_fcts m)).

(** [Manufacturer.get(key)] on a string key. *)
Definition get (m : manufacturer) (key : string) : option factory :=
  (if is_reserved key then m_builtin_fcts m else m_user_fcts m) !! key.

(** [Manufacturer.get(key)] on any value: [key.split] raises
    [AttributeError] on a non-string. *)
Definition get_py (m : manufacturer) (key : pyval) : exc + option factory :=
  match key with
  | VStr s => inr (get m s)
  | _ => inl AttributeError
  end.

(** [Manufacturer._register(key, factory, signature, defaults,
    override=override)] of a user factory: [fn] is the callable, given with
    its [FnArgSpec]; no descriptions. *)
Definition register (m : manufacturer) (key : string) (fn : nat) (fas : fn_arg_spec)
    (signature : list (string * param_spec)) (defaults : kwargs) (override : bool)
  : (exc + unit) * manufacturer :=
  if bool_decide (is_Some (m_user_fcts m !! key)) && negb override
  then (inl (KeyConflictError [key]), m)
  else match signature_create fas signature with
       | inl e => (inl e, m)
       | inr sig =>
           (inr tt, set_user_fcts m (<[key := Factory (m_cls m) fn sig defaults]> (m_user_fcts m)))
       end.

(** [Manufacturer._register(key=key, factory=fct, signature=None,
    override=override)] as [_merge] calls it, [fct] the result of
    [mfr.get(key)]: a [Factory] takes the merge branch; [None] fails
    [validate.is_callable]. *)
Definition register_merged (m : manufacturer) (key : string) (fct : option factory)
    (override : bool) : (exc + unit) * manufacturer :=
  match fct with
  | Some f =>
      if bool_decide (is_Some (m_user_fcts m !! key)) && negb override
      then (inl (KeyConflictError [key]), m)
      else (inr tt, set_user_fcts m (<[key := f]> (m_user_fcts m)))
  | None => (inl (TypeError "factory must be callable"), m)
  end.

(** [_merged_name(root, name, sep)] *)
Definition merged_name (root : option string) (name sep : string) : string :=
  match root with
  | None => name
  | Some r => String.append r (String.append sep name)
  end.

(** The loop of [Manufacturer._merge] over [mfr.keys()]. *)
Fixpoint merge_loop (m mfr : manufacturer) (root : option string) (override ignore_collision : bool)
    (sep : string) (ks : list string) : (exc + unit) * manufacturer :=
  match ks with
  | [] => (inr tt, m)
  | key :: ks' =>
      let fct := get mfr key in
      let (r, m') := register_merged m (merged_name root key sep) fct override in
      match r with
      | inr _ => merge_loop m' mfr root override ignore_collision sep ks'
      | inl (KeyConflictError _) =>
          if ignore_collision then merge_loop m' mfr root override ignore_collision sep ks'
          else (r, m')
      | inl _ => (r, m')
      end
  end.

(** [Manufacturer._merge(root, mfr, override, ignore_collision, sep)] *)
Definition merge_ (m : manufacturer) (root : option string) (mfr : manufacturer)
    (override ignore_collision : bool) (sep : string) : (exc + unit) * manufacturer :=
  merge_loop m mfr root override ignore_collision sep (keys mfr).

(** [Manufacturer._validate_merge(mfr, root, override, ignore_collision, sep)];
    the colliding keys are reported unsorted. *)
Definition validate_merge (m mfr : manufacturer) (root : option string)
    (override ignore_collision : bool) (sep : string) : option exc :=
  if negb (issubclass (m_cls mfr) (m_cls m)) then Some (TypeError "target of mfr must be a subclass")
  else if override || ignore_collision then None
  else
    let merged_names := map (fun n => merged_name root n sep) (keys mfr) in
    let collisions := List.filter (fun n => bool_decide (is_Some (m_user_fcts m !! n))) merged_names in
    if null collisions then None else Some (KeyConflictError collisions).

(** [Manufacturer.merge(mfr, root, override, ignore_collision, sep)] *)
Definition merge (m mfr : manufacturer) (root : option string)
    (override ignore_collision : bool) (sep : string) : (exc + unit) * manufacturer :=
  match validate_merge m mfr root override ignore_collision sep with
  | Some e => (inl e, m)
  | None => merge_ m root mfr override ignore_collision sep
  end.

(** ** [afb/core/broker.py] *)

(** The manufacturers of a [Broker] by target class. *)
Abbreviation broker := (list (cls * manufacturer)).

(** [Broker.get(cls)] *)
Fixpoint bk_get (bk : broker) (c : cls) : option manufacturer :=
  match bk with
  | [] => None
  | (c', m) :: rest => if cls_eqb c' c then Some m else bk_get rest c
  end.

(** ** Object construction: [Manufacturer.make] *)
Section Make.
(** The user callables (see [factory_call]). *)
Variable py_call : nat -> kwargs -> exc + pyval.
(** [primitives.create_mfr(cls)] or [Manufacturer(cls)], the manufacturer
    [Broker.get_or_create] creates for a class it has none of. *)
Variable new_mfr : cls -> manufacturer.

(** [Broker.get_or_create(cls)]: the manufacturer and the broker's
    registrations afterwards. *)
Definition get_or_create (bk : broker) (c : cls) : manufacturer * broker :=
  match bk_get bk c with
  | Some m => (m, bk)
  | None => let m := new_mfr c in (m, bk ++ [(c, m)])
  end.

(** The state of the construction phase: the broker the manufacturer is
    bound to, [None] when [self._broker] is [None]. *)
Abbreviation cstate := (option broker).

(** Modelled from the spec: [fn_util.FnCall] is not among the sources.
    [FnCall.stub(fn)] is taken as [FuseCallInfo.partial(fn)] of
    [fn_util.py]: the fuse function that builds [FnCall(fn, *args)], whose
    [args] are the collected results and whose call applies [fn]. *)
Definition stub (fn : fnref) (args : list pyval) (st : cstate) : (exc + pyval) * cstate :=
  (inr (VCall fn args), st).

Abbreviation cresult := (Algorithms.proc_result TypeSpecs.citem pyval cstate).

(** [Manufacturer._create_exec_tree_proc(item)] *)
Definition create_exec_tree_proc (item : TypeSpecs.citem) (st : cstate)
  : (exc + cresult) * cstate :=
  match item with
  | TypeSpecs.CINone v => (inr (Algorithms.ItemResult v), st)
  | TypeSpecs.CITS ts m =>
      (inr (Algorithms.NodeResult (stub (FPack ts)) (TypeSpecs.parse_manifest ts m)), st)
  | TypeSpecs.CICls c obj_or_spec =>
      match obj_or_spec with
      | VNone => (inr (Algorithms.ItemResult VNone), st)
      | _ =>
          if ObjSpec.is_direct_object obj_or_spec c then (inr (Algorithms.ItemResult obj_or_spec), st)
          else match obj_or_spec with
               | VSpec raw key inputs =>
                   match st with
                   | None => (inl GraphError, st)
                   | Some bk =>
                       let (mfr, bk') := get_or_create bk c in
                       match get_py mfr key with
                       | inl e => (inl e, Some bk')
                       | inr None =>
                           if cls_eqb c CDict then (inr (Algorithms.ItemResult raw), Some bk')
                           else (inl (KeyError "No such factory"), Some bk')
                       | inr (Some fct) =>
                           (inr (Algorithms.NodeResult (stub (FFactory (fct_cls fct) (fct_fn fct)))
                                   (parse_inputs fct inputs)), Some bk')
                       end
                   end
               | _ => (inl AssertionError, st)
               end
      end
  end.

(** Calling an [FnCall] on the realized arguments. *)
Definition apply_fncall (fn : fnref) (args : list pyval) (lg : log) : (exc + pyval) * log :=
  match fn with
  | FPack ts => (TypeSpecs.pack ts args, lg)
  | FFactory c f => call_as_fuse_fn py_call c f args lg
  end.

Abbreviation rresult := (Algorithms.proc_result pyval pyval log).

(** [_run_exec_tree_proc(item)] *)
Definition run_exec_tree_proc (item : pyval) (lg : log) : (exc + rresult) * log :=
  match item with
  | VCall fn args => (inr (Algorithms.NodeResult (apply_fncall fn) (Algorithms.Gen args None)), lg)
  | _ => (inr (Algorithms.ItemResult item), lg)
  end.

(** [Manufacturer._create_exec_tree] from the seed item, then the
    [PostorderDFS(_run_exec_tree_proc)] of [_make]; [None] when [fuel]
    iterations do not suffice. *)
Definition exec_tree (fuel : nat) (seed : TypeSpecs.citem) (st : cstate) (lg : log)
  : option ((exc + pyval) * cstate * log) :=
  match Algorithms.postorder_dfs create_exec_tree_proc VNone fuel seed st with
  | None => None
  | Some (inl e, st') => Some (inl e, st', lg)
  | Some (inr root, st') =>
      match Algorithms.postorder_dfs run_exec_tree_proc VNone fuel root lg with
      | None => None
      | Some (r, lg') => Some (r, st', lg')
      end
  end.

(** [validate.is_kwargs(inputs, "inputs")] *)
Definition is_kwargs (inputs : pyval) : option exc :=
  match inputs with
  | VNone => None
  | VDict kvs =>
      if forallb (fun kv => match kv.1 with VStr _ => true | _ => false end) kvs then None
      else Some (TypeError "Keys in inputs must be of string type")
  | _ => Some (TypeError "inputs must be a dictionary of keyword arguments")
  end.

(** [Manufacturer.make(key, inputs)] on [self], bound to [bko], with the
    calls made so far [lg]. *)
Definition make (fuel : nat) (self : manufacturer) (bko : cstate) (key : option pyval)
    (inputs : pyval) (lg : log) : option ((exc + pyval) * cstate * log) :=
  let key := match key with None => option_map VStr (m_default self) | Some k => Some k end in
  match key with
  | None => Some (inl ValueError, bko, lg)
  | Some key =>
      match get_py self key with
      | inl e => Some (inl e, bko, lg)
      | inr None => Some (inl (KeyError "Factory not found"), bko, lg)
      | inr (Some _) =>
          match is_kwargs inputs with
          | Some e => Some (inl e, bko, lg)
          | None => exec_tree fuel (TypeSpecs.CITS (TSClass (m_cls self)) (VDict [(key, inputs)])) bko lg
          end
      end
  end.

End Make.


(** ** Values the construction leaves unchanged *)

(** No two keys of a dict's items are equal. *)
Fixpoint keys_distinct (kvs : list (pyval * pyval)) : bool :=
  match kvs with
  | [] => true
  | (k, _) :: rest => forallb (fun kv => negb (pyval_eqb k kv.1)) rest && keys_distinct rest
  end.

(** [isinstance(v, FnCall)] *)
Definition is_fncall (v : pyval) : bool :=
  match v with VCall _ _ => true | _ => false end.

(** [v] is already realized for the type spec [ts]: a direct object of the
    class (and no [FnCall], which the second phase would call), a tuple
    (what [_ListTypeSpec.pack] and [_TupleTypeSpec.pack] build) of realized
    entries, or a dict with distinct hashable realized keys and realized
    values. *)
Fixpoint realized (ts : typespec) (v : pyval) {struct ts} : bool :=
  match ts with
  | TSClass c => ObjSpec.is_direct_object v c && negb (is_fncall v)
  | TSList t =>
      match v with VTuple l => forallb (realized t) l | _ => false end
  | TSDict ks vs =>
      match v with
      | VDict kvs =>
          forallb (fun kv => realized ks kv.1 && realized vs kv.2 && hashable kv.1) kvs &&
          keys_distinct kvs
      | _ => false
      end
  | TSTuple specs =>
      let fix all2 (specs : list typespec) (l : list pyval) : bool :=
        match specs, l with
        | [], [] => true
        | t :: specs', x :: l' => realized t x && all2 specs' l'
        | _, _ => false
        end in
      match v with VTuple l => all2 specs l | _ => false end
  end.




(** Type specs [[[...[int]...]]] nested [n] deep, manifests [[[...[1]...]]]
    of single-element lists nested [n] deep, and the value they realize to:
    single-element tuples nested [n] deep. *)
Fixpoint nest_ts (n : nat) : typespec :=
  match n with 0 => TSClass CInt | S n' => TSList (nest_ts n') end.

Fixpoint nest_list (n : nat) : pyval :=
  match n with 0 => VInt 1 | S n' => VList [nest_list n'] end.

Fixpoint nest_tuple (n : nat) : pyval :=
  match n with 0 => VInt 1 | S n' => VTuple [nest_tuple n'] end.

(** The two object-spec forms as the documentation states them: a
    one-entry dict with a string key, or a two-entry dict whose keys are
    ["key"] and ["inputs"]. *)
Definition spec_shape (kvs : list (pyval * pyval)) : bool :=
  match kvs with
  | [(VStr _, _)] => true
  | [(k1, _); (k2, _)] =>
      (ObjSpec.is_str "key" k1 && ObjSpec.is_str "inputs" k2) ||
      (ObjSpec.is_str "inputs" k1 && ObjSpec.is_str "key" k2)
  | _ => false
  end.

(** Induction on type specs through the entries of a tuple spec. *)
Definition typespec_ind' (P : typespec -> Prop)
    (HC : forall c, P (TSClass c))
    (HL : forall t, P t -> P (TSList t))
    (HD : forall k v, P k -> P v -> P (TSDict k v))
    (HT : forall l, Forall P l -> P (TSTuple l)) : forall ts, P ts :=
  fix go ts :=
    match ts with
    | TSClass c => HC c
    | TSList t => HL t (go t)
    | TSDict k v => HD k v (go k) (go v)
    | TSTuple l =>
        HT l ((fix go_l l : Forall P l :=
                 match l with
                 | [] => List.Forall_nil P
                 | t :: l' => @List.Forall_cons _ P t l' (go t) (go_l l')
                 end) l)
    end.

(** The entries of an ordered dict for the keys [ks], in the order of
    [ks], and the entries whose key is not in [ks]. *)
Definition od_pick {V : Type} (od : list (string * V)) (ks : list string) : list (string * V) :=
  flat_map (fun k => match od_get od k with Some v => [(k, v)] | None => [] end) ks.

Definition od_without {V : Type} (od : list (string * V)) (ks : list string) : list (string * V) :=
  List.filter (fun kv => negb (str_mem kv.1 ks)) od.

(** ** [TypeSpec.parse] ([afb/core/specs/type_.py]) *)
Module RawSpec.

(** The Python objects [TypeSpec.parse] meets: a class (of metaclass
    [type]), a list, a dict, a tuple, a [TypeSpec] instance, or any other
    value.  The entries of a dict are its items in order; a list or dict
    key, which Python refuses before [parse] runs, is not excluded. *)
Inductive raw :=
| RType (c : cls)
| RList (l : list raw)
| RDict (kvs : list (raw * raw))
| RTuple (l : list raw)
| RTS (ts : typespec)
| ROther (v : pyval).

(** [_ClassTypeSpec.fuse_subspecs( *specs)] *)
Definition fuse_class (specs : list typespec) (st : unit) : (exc + typespec) * unit :=
  (match specs with [TSClass c] => inr (TSClass c) | _ => inl AssertionError end, st).

(** [_ListTypeSpec.fuse_subspecs( *specs)] *)
Definition fuse_list (specs : list typespec) (st : unit) : (exc + typespec) * unit :=
  (match specs with [t] => inr (TSList t) | _ => inl AssertionError end, st).

(** [_DictTypeSpec.fuse_subspecs( *specs)] *)
Definition fuse_dict (specs : list typespec) (st : unit) : (exc + typespec) * unit :=
  (match specs with [k; v] => inr (TSDict k v) | _ => inl AssertionError end, st).

(** [_TupleTypeSpec.fuse_subspecs( *specs)] *)
Definition fuse_tuple (specs : list typespec) (st : unit) : (exc + typespec) * unit :=
  (match specs with [] => inl AssertionError | _ => inr (TSTuple specs) end, st).

(** [TypeSpec._parse_proc(item)] with the generators [iter_raw]:
    [_ClassTypeSpec.iter_raw] yields [cls(raw_spec)], [_ListTypeSpec]'s
    yields [raw_spec[0]] (an [IndexError] at the first [next] on an empty
    list), [_DictTypeSpec]'s asserts a single entry and yields its key and
    value, [_TupleTypeSpec]'s yields every entry; [_TS_MAP[type(item)]]
    raises [KeyError] on any other value. *)
Definition parse_proc (item : raw) (st : unit)
  : (exc + Algorithms.proc_result raw typespec unit) * unit :=
  match item with
  | RTS ts => (inr (Algorithms.ItemResult ts), st)
  | RType c => (inr (Algorithms.NodeResult fuse_class (Algorithms.Gen [RTS (TSClass c)] None)), st)
  | RList l =>
      (inr (Algorithms.NodeResult fuse_list
              (match l with
               | x :: _ => Algorithms.Gen [x] None
               | [] => Algorithms.Gen [] (Some IndexError)
               end)), st)
  | RDict kvs =>
      (inr (Algorithms.NodeResult fuse_dict
              (match kvs with
               | [(k, v)] => Algorithms.Gen [k; v] None
               | _ => Algorithms.Gen [] (Some AssertionError)
               end)), st)
  | RTuple l => (inr (Algorithms.NodeResult fuse_tuple (Algorithms.Gen l None)), st)
  | ROther _ => (inl (KeyError "type not in _TS_MAP"), st)
  end.

(** [TypeSpec.parse(spec)]; [None] when [fuel] iterations do not suffice.
    The initial [result = None] of the loop is never returned (the seed
    frame is always fused first); [TSTuple []] stands for it. *)
Definition typespec_parse (fuel : nat) (spec : raw) : option (exc + typespec) :=
  match spec with
  | RTS ts => Some (inr ts)
  | ROther _ => Some (inl (TypeError "spec has to be a type, list, dict or tuple"))
  | _ => option_map fst (Algorithms.postorder_dfs parse_proc (TSTuple []) fuel spec tt)
  end.

(** The raw form of a type spec, as the grammar of the [TypeSpec]
    docstring writes it: a class, [[TS]], [{TS: TS}], [(TS, ..., TS)]. *)
Fixpoint to_raw (ts : typespec) : raw :=
  match ts with
  | TSClass c => RType c
  | TSList t => RList [to_raw t]
  | TSDict k v => RDict [(to_raw k, to_raw v)]
  | TSTuple l => RTuple (map to_raw l)
  end.

(** No tuple type spec in [ts] is empty. *)
Fixpoint tuples_nonempty (ts : typespec) : bool :=
  match ts with
  | TSClass _ => true
  | TSList t => tuples_nonempty t
  | TSDict k v => tuples_nonempty k && tuples_nonempty v
  | TSTuple l => negb (null l) && forallb tuples_nonempty l
  end.

End RawSpec.

(** ** Further methods of [Manufacturer] and [Broker] *)

(** [key in self] ([Manufacturer.__contains__]) *)
Definition contains (m : manufacturer) (key : string) : bool :=
  bool_decide (is_Some (m_builtin_fcts m !! key)) || bool_decide (is_Some (m_user_fcts m !! key)).

(** The setter [Manufacturer.default = key] on a string key or [None]. *)
Definition set_default (m : manufacturer) (key : option string) : exc + manufacturer :=
  match key with
  | Some k =>
      if contains m k then inr (Manufacturer (m_cls m) (m_builtin_fcts m) (m_user_fcts m) (Some k))
      else inl (KeyError "Factory not found")
  | None => inr (Manufacturer (m_cls m) (m_builtin_fcts m) (m_user_fcts m) None)
  end.

(** The [(root, mfr)] pairs of [Manufacturer.merge_all(mfr_dict)], each
    value of [mfr_dict] already a list of manufacturers; the roots of the
    dict are distinct. *)
Definition merge_pairs (mfr_dict : list (option string * list manufacturer))
  : list (option string * manufacturer) :=
  flat_map (fun rm => map (fun mfr => (rm.1, mfr)) rm.2) mfr_dict.

(** The first exception of a validation loop. *)
Fixpoint first_error {X : Type} (f : X -> option exc) (l : list X) : option exc :=
  match l with
  | [] => None
  | x :: l' => match f x with Some e => Some e | None => first_error f l' end
  end.

(** The second loop of [merge_all]: [self._merge(root, mfr, **kwargs)] in
    turn; an exception stops it. *)
Fixpoint merge_seq (m : manufacturer) (pairs : list (option string * manufacturer))
    (override ignore_collision : bool) (sep : string) : (exc + unit) * manufacturer :=
  match pairs with
  | [] => (inr tt, m)
  | (root, mfr) :: rest =>
      let (r, m') := merge_ m root mfr override ignore_collision sep in
      match r with
      | inl e => (inl e, m')
      | inr _ => merge_seq m' rest override ignore_collision sep
      end
  end.

(** [Manufacturer.merge_all(mfr_dict, **kwargs)] with the keyword
    arguments [override], [ignore_collision] and [sep], each passed or not.
    [self._validate_merge(mfr, root, **kwargs)] has no defaults for them:
    a call without all three raises [TypeError]. *)
Definition merge_all (m : manufacturer) (mfr_dict : list (option string * list manufacturer))
    (override ignore_collision : option bool) (sep : option string)
  : (exc + unit) * manufacturer :=
  let pairs := merge_pairs mfr_dict in
  match override, ignore_collision, sep with
  | Some o, Some i, Some s =>
      match first_error (fun p => validate_merge m p.2 p.1 o i s) pairs with
      | Some e => (inl e, m)
      | None => merge_seq m pairs o i s
      end
  | _, _, _ =>
      match pairs with
      | [] => (inr tt, m)
      | _ :: _ => (inl (TypeError "_validate_merge() missing required positional arguments"), m)
      end
  end.

(** [self._mfrs.pop(cls)] *)
Definition bk_remove (bk : broker) (c : cls) : broker :=
  List.filter (fun cm => negb (cls_eqb cm.1 c)) bk.

(** The binding of a manufacturer as [Manufacturer._bind] finds it: no
    live broker ([_broker] is [None]: never bound, or its broker has been
    collected), bound to a live broker, or its attribute [_bind] set to
    [None] by the [pop] of an earlier [Broker._register] with [override]
    (a manufacturer registered in a live broker is bound to it). *)
Inductive bind_state := Unbound | BoundLive | BindCleared.

(** [mfr._bind(self)], the [dc.restricted] check taken to pass (its
    [fn_util.is_called_internally] reads [const.AFB_ROOT], which is not
    among the sources; the call comes from inside afb). Bound to a live broker, [_bind] calls
    [_broker._detach(self._cls)]; the bare [@dc.restricted] on
    [Broker._detach] makes it the one-argument [decorator] of
    [restricted], so that call raises [TypeError]. A [_bind] set to [None]
    is not callable: [TypeError]. *)
Definition bind (bs : bind_state) : exc + unit :=
  match bs with
  | Unbound => inr tt
  | BoundLive => inl (TypeError "decorator() takes 1 positional argument but 2 were given")
  | BindCleared => inl (TypeError "'NoneType' object is not callable")
  end.

(** [Broker._register(mfr, override)] on the broker's registrations, [bs]
    the binding of [mfr]: a class present without [override] raises
    [KeyConflictError]; with [override] the old manufacturer is popped
    first; then [mfr._bind(self)], and on success [self._mfrs[cls] = mfr]
    (a new last entry). The binding the call leaves on the manufacturers is
    not part of the result. *)
Definition bk_register (bk : broker) (m : manufacturer) (bs : bind_state) (override : bool)
  : (exc + unit) * broker :=
  let bind_and_set (b : broker) :=
    match bind bs with
    | inl e => (inl e, b)
    | inr _ => (inr tt, b ++ [(m_cls m, m)])
    end in
  match bk_get bk (m_cls m) with
  | Some _ =>
      if override then bind_and_set (bk_remove bk (m_cls m))
      else (inl (KeyConflictError []), bk)
  | None => bind_and_set bk
  end.

Section BrokerMake.
Variable py_call : nat -> kwargs -> exc + pyval.
Variable new_mfr : cls -> manufacturer.

(** [Broker.make(cls, key, inputs)]: [get_or_create(cls)], then
    [ObjectSpec.parse({"key": key, "inputs": inputs})] and
    [mfr.make( **obj_spec.as_dict())], [None] as key meaning the default. *)
Definition bk_make (fuel : nat) (bk : broker) (c : cls) (key inputs : pyval) (lg : log)
  : option ((exc + pyval) * option broker * log) :=
  let (mfr, bk') := get_or_create new_mfr bk c in
  match ObjSpec.parse (VDict [(VStr "key", key); (VStr "inputs", inputs)]) with
  | inl e => Some (inl e, Some bk', lg)
  | inr (VSpec _ k i) =>
      make py_call new_mfr fuel mfr (Some bk') (match k with VNone => None | _ => Some k end) i lg
  | inr _ => Some (inl AssertionError, Some bk', lg)
  end.

End BrokerMake.

(** ** Concrete manufacturers *)

(** A factory of [object] with no parameters, wrapping the callable [fn]. *)
Definition fct_plain (fn : nat) : factory := Factory CObject fn (Signature [] []) [].

(** A manufacturer of [object] with the given builtin and user factories. *)
Definition mfr_of (builtins users : gmap string factory) : manufacturer :=
  Manufacturer CObject builtins users None.

(** The [FnArgSpec] of a callable without parameters. *)
Definition fas_none : fn_arg_spec := FnArgSpec [] [] false.

(** A user class [A]. *)
Definition cls_A : cls := CUser "A" CObject.

(** A factory of [object] with one required parameter ["a"] of class [A]. *)
Definition fct_needs_A : factory :=
  Factory CObject 5 (Signature [("a"%string, ParameterSpec (TSClass cls_A) "" true)] ["a"%string]) [].

(** A callable [def fn(a, b=0, **kwargs)] and declared specs for ["a"] and
    for ["x"], a key only the [**kwargs] sink accepts, both marked
    [required]. *)
Definition fas_ab : fn_arg_spec := FnArgSpec ["a"%string] ["b"%string] true.

Definition ps_int_required : param_spec := ParameterSpec (TSClass CInt) "" true.

Definition specs_ax : list (string * param_spec) :=
  [("a"%string, ps_int_required); ("x"%string, ps_int_required)].

(** A manufacturer of the user class [B] whose factory ["f"] (callable [7])
    takes one required [int] parameter ["a"], the broker it is bound to,
    and keyword arguments for ["f"]. *)
Definition cls_B : cls := CUser "B" CObject.

Definition fct_B_a : factory :=
  Factory cls_B 7 (Signature [("a"%string, ps_int_required)] ["a"%string]) [].



Definition kw_a1 : kwargs := [("a"%string, VInt 1)].





(** [Manufacturer(cls)] with no factories. *)
Definition new_empty_mfr (c : cls) : manufacturer := Manufacturer c ∅ ∅ None.

(** User callables returning a fresh instance of [B]. *)
Definition py_ret_B (fn : nat) (kw : kwargs) : exc + pyval := inr (VInst cls_B fn).

(** ** Facts on [PostorderDFS] *)
Module AlgorithmsFacts.
Import Algorithms.

Section PostorderDFS.
Context {A R St : Type}.
Variable proc_fn : A -> St -> (exc + proc_result A R St) * St.
Variable none : R.

Local Abbreviation step := (Algorithms.step proc_fn).
Local Abbreviation loop := (Algorithms.loop proc_fn).
Local Abbreviation eval := (Algorithms.eval proc_fn).
Local Abbreviation eval_gen := (Algorithms.eval_gen proc_fn).
Local Abbreviation reach := (Algorithms.reach proc_fn).
Local Abbreviation halts := (Algorithms.halts proc_fn).
Local Abbreviation postorder_dfs := (Algorithms.postorder_dfs proc_fn none).

Lemma reach_refl stk r st : reach stk r st stk r st.
Proof. exists 0; reflexivity. Qed.

Lemma reach_trans stk1 r1 st1 stk2 r2 st2 stk3 r3 st3 :
  reach stk1 r1 st1 stk2 r2 st2 -> reach stk2 r2 st2 stk3 r3 st3 ->
  reach stk1 r1 st1 stk3 r3 st3.
Proof.
  intros [k1 H1] [k2 H2]; exists (k1 + k2); intros n.
  rewrite <- Nat.add_assoc, H1; apply H2.
Qed.

Lemma reach_halts stk r st stk' r' st' out :
  reach stk r st stk' r' st' -> halts stk' r' st' out -> halts stk r st out.
Proof.
  intros [k1 H1] [k2 H2]; exists (k1 + k2); intros n.
  rewrite <- Nat.add_assoc, H1; apply H2.
Qed.

Lemma step_reach stk r st stk' r' st' :
  step stk r st = Continue stk' r' st' -> reach stk r st stk' r' st'.
Proof. intros H; exists 1; intros n; simpl; rewrite H; reflexivity. Qed.

Lemma step_halts stk r st out st' :
  step stk r st = Halt out st' -> halts stk r st (out, st').
Proof. intros H; exists 1; intros n; simpl; rewrite H; reflexivity. Qed.

Lemma loop_mono n m stk r st out :
  loop n stk r st = Some out -> loop (n + m) stk r st = Some out.
Proof.
  revert stk r st; induction n as [|n IH]; intros stk r st H; [discriminate|].
  simpl in *; destruct (step stk r st); [apply IH|]; assumption.
Qed.

Lemma eval_gen_ok_stops l oe st vs st' :
  eval_gen l oe st (inr vs) st' -> oe = None.
Proof.
  revert st vs; induction l as [|a l IH]; intros st vs H; inversion H; subst;
    [reflexivity | eapply IH; eassumption].
Qed.

(** The loop runs a child evaluation in place: an item that evaluates to
    [v] is replaced by [v] in the collected results of its frame. *)
Lemma eval_run :
  (forall a st res st', eval a st res st' ->
     forall f more oe col rest result,
       (forall v, res = inr v -> exists result',
          reach (Node f (Gen (a :: more) oe) col :: rest) result st
                (Node f (Gen more oe) (col ++ [v]) :: rest) result' st') /\
       (forall e, res = inl e ->
          halts (Node f (Gen (a :: more) oe) col :: rest) result st (inl e, st'))) /\
  (forall l oe st res st', eval_gen l oe st res st' ->
     forall f col rest result,
       (forall vs, res = inr vs -> exists result',
          reach (Node f (Gen l oe) col :: rest) result st
                (Node f (Gen [] oe) (col ++ vs) :: rest) result' st') /\
       (forall e, res = inl e ->
          halts (Node f (Gen l oe) col :: rest) result st (inl e, st'))).
Proof.
  apply (eval_both proc_fn).
  - (* ev_raise *)
    intros a st e st' Hp f more oe col rest result; split; [discriminate|].
    intros e' [= <-]; apply step_halts; simpl; rewrite Hp; reflexivity.
  - (* ev_item *)
    intros a st v st' Hp f more oe col rest result; split; [|discriminate].
    intros v' [= <-]; exists result; apply step_reach; simpl; rewrite Hp.
    reflexivity.
  - (* ev_node_raise *)
    intros a st f' g st1 e st2 Hp Hg IH f more oe col rest result.
    split; [discriminate|]; intros e' [= <-].
    destruct g as [items raise]; simpl in *.
    eapply reach_halts; [apply step_reach; simpl; rewrite Hp; reflexivity|].
    apply (proj2 (IH f' [] (Node f (Gen more oe) col :: rest) result)).
    reflexivity.
  - (* ev_node *)
    intros a st f' g st1 vs st2 Hp Hg IH f more oe col rest result.
    destruct g as [items raise]; simpl in *.
    pose proof (eval_gen_ok_stops _ _ _ _ _ Hg) as ->.
    destruct (proj1 (IH f' [] (Node f (Gen more oe) col :: rest) result) vs
                eq_refl) as [result' Hr].
    destruct (f' vs st2) as [[e|v] st3] eqn:Hf; simpl; split; try discriminate.
    + intros e' [= <-].
      eapply reach_halts; [apply step_reach; simpl; rewrite Hp; reflexivity|].
      eapply reach_halts; [exact Hr|].
      apply step_halts; simpl; rewrite Hf; reflexivity.
    + intros v' [= <-]; exists v.
      eapply reach_trans; [apply step_reach; simpl; rewrite Hp; reflexivity|].
      eapply reach_trans; [exact Hr|].
      apply step_reach; simpl; rewrite Hf; reflexivity.
  - (* eg_stop *)
    intros st f col rest result; split; [|discriminate].
    intros vs [= <-]; exists result; rewrite app_nil_r; apply reach_refl.
  - (* eg_raise *)
    intros e st f col rest result; split; [discriminate|].
    intros e' [= <-]; apply step_halts; reflexivity.
  - (* eg_cons_raise *)
    intros a l oe st e st' He IH f col rest result; split; [discriminate|].
    intros e' [= <-]; apply (proj2 (IH f l oe col rest result)); reflexivity.
  - (* eg_cons *)
    intros a l oe st v st1 vs st2 Ha IHa Hl IHl f col rest result.
    split; [|discriminate]; intros vs' [= <-].
    destruct (proj1 (IHa f l oe col rest result) v eq_refl) as [r1 H1].
    destruct (proj1 (IHl f (col ++ [v]) rest r1) vs eq_refl) as [r2 H2].
    exists r2; rewrite <- app_assoc in H2; simpl in H2.
    eapply reach_trans; eassumption.
  - (* eg_cons_raise_later *)
    intros a l oe st v st1 e st2 Ha IHa Hl IHl f col rest result.
    split; [discriminate|]; intros e' [= <-].
    destruct (proj1 (IHa f l oe col rest result) v eq_refl) as [r1 H1].
    eapply reach_halts; [exact H1|].
    apply (proj2 (IHl f (col ++ [v]) rest r1)); reflexivity.
Qed.

(** Completeness of the iterative evaluator w.r.t. the recursive fold. *)
Lemma dfs_complete seed st res st' :
  eval seed st res st' -> halts [root_node seed] none st (res, st').
Proof.
  intros H; destruct (proj1 eval_run _ _ _ _ H root_fuse [] None [] [] none) as [Hok Herr].
  destruct res as [e|v].
  - apply Herr; reflexivity.
  - destruct (Hok v eq_refl) as [r' Hr].
    eapply reach_halts; [exact Hr|].
    eapply reach_halts; [apply step_reach; reflexivity|].
    apply step_halts; reflexivity.
Qed.

(** Together with monotonicity in the fuel: the only value the iterative
    evaluator can return is the one of the recursive fold. *)
Lemma dfs_refines seed st res st' :
  eval seed st res st' ->
  (exists k, forall n, postorder_dfs (k + n) seed st = Some (res, st')) /\
  (forall k out, postorder_dfs k seed st = Some out -> out = (res, st')).
Proof.
  intros H; destruct (dfs_complete _ _ _ _ H) as [k Hk]; split.
  - exists k; exact Hk.
  - intros k' out Hout; unfold postorder_dfs in Hout.
    pose proof (loop_mono _ k _ _ _ _ Hout) as H1.
    specialize (Hk k'); unfold postorder_dfs in Hk.
    rewrite Nat.add_comm in Hk; congruence.
Qed.

(** [ev_node] with the result of the fuse function given by an equation. *)
Lemma ev_node_eq a st f g st1 vs st2 r st3 :
  proc_fn a st = (inr (NodeResult f g), st1) ->
  eval_gen (gen_items g) (gen_raise g) st1 (inr vs) st2 ->
  f vs st2 = (r, st3) -> eval a st r st3.
Proof.
  intros H1 H2 H3.
  assert (H : eval a st (fst (f vs st2)) (snd (f vs st2))) by (eapply Algorithms.ev_node; eassumption).
  rewrite H3 in H; exact H.
Qed.

End PostorderDFS.
End AlgorithmsFacts.

(** ** Properties of [afb]'s object construction *)

(** *** Object specs *)

Lemma is_str_eq s v : ObjSpec.is_str s v = true -> v = VStr s.
Proof. destruct v; simpl; try discriminate; intros H; apply String.eqb_eq in H; subst; reflexivity. Qed.

Lemma is_str_key_inputs v : ObjSpec.is_str "key" v && ObjSpec.is_str "inputs" v = false.
Proof.
  destruct v; try reflexivity; unfold ObjSpec.is_str.
  destruct (String.eqb "key" s) eqn:E; [apply String.eqb_eq in E; subst|]; reflexivity.
Qed.

Lemma is_object_spec_dict kvs : ObjSpec.is_object_spec (VDict kvs) = spec_shape kvs.
Proof.
  destruct kvs as [|[k1 v1] [|[k2 v2] [|kv3 rest]]]; try reflexivity.
  - pose proof (is_str_key_inputs k1); pose proof (is_str_key_inputs k2).
    destruct k1; unfold ObjSpec.is_object_spec, ObjSpec.keys_are_key_inputs, spec_shape;
      cbn -[ObjSpec.is_str];
      destruct (ObjSpec.is_str "key" _), (ObjSpec.is_str "inputs" _),
               (ObjSpec.is_str "key" k2), (ObjSpec.is_str "inputs" k2);
      simpl in *; congruence.
  - destruct k1; reflexivity.
Qed.

(** *** [Factory.__call__] *)

Lemma isinstance_none c : isinstance VNone c = true <-> c = CObject \/ c = CNoneType.
Proof.
  destruct c; vm_compute; intuition congruence.
Qed.

(** *** Claims on object specs and [Factory.__call__] *)

(** C10 (amended): [ObjectSpec.parse] returns an [ObjectSpec] instance
    unchanged.  On any other value it accepts exactly the two documented dict
    forms: a one-entry dict with a string key, or a two-entry dict with the
    keys ["key"] and ["inputs"]. Everything else raises
    [InvalidFormatError]. On dicts, [is_object_spec] is exactly the check
    for the two forms.  A dict of neither form is a direct object of every
    class it is an instance of. *)
Theorem object_spec_parse_forms :
  (forall raw key inputs,
     ObjSpec.parse (VSpec raw key inputs) = inr (VSpec raw key inputs)) /\
  (forall kvs, ObjSpec.is_object_spec (VDict kvs) = spec_shape kvs) /\
  (forall kvs, spec_shape kvs = true ->
     exists key inputs, ObjSpec.parse (VDict kvs) = inr (VSpec (VDict kvs) key inputs) /\
       (kvs = [(key, inputs)] \/ kvs = [(VStr "key", key); (VStr "inputs", inputs)] \/
        kvs = [(VStr "inputs", inputs); (VStr "key", key)])) /\
  (forall v, (forall raw key inputs, v <> VSpec raw key inputs) ->
     (forall kvs, v = VDict kvs -> spec_shape kvs = false) ->
     ObjSpec.parse v = inl InvalidFormatError) /\
  (forall kvs c, spec_shape kvs = false ->
     ObjSpec.is_direct_object (VDict kvs) c = isinstance (VDict kvs) c).
Proof.
  split; [reflexivity|]. split; [exact is_object_spec_dict|]. split; [|split].
  - intros kvs Hs.
    destruct kvs as [|[k1 v1] [|[k2 v2] [|kv3 rest]]]; try discriminate.
    + exists k1, v1; split; [|left; reflexivity].
      unfold ObjSpec.parse; rewrite is_object_spec_dict, Hs; reflexivity.
    + unfold spec_shape in Hs; destruct k1;
        try (apply orb_true_iff in Hs;
             destruct Hs as [Hs|Hs]; apply andb_true_iff in Hs; destruct Hs as [E1 E2];
             apply is_str_eq in E1, E2; discriminate).
      apply orb_true_iff in Hs; destruct Hs as [Hs|Hs]; apply andb_true_iff in Hs;
        destruct Hs as [E1 E2]; apply is_str_eq in E1, E2; injection E1 as ->; subst k2.
      * exists v1, v2; split; [reflexivity | right; left; reflexivity].
      * exists v2, v1; split; [reflexivity | right; right; reflexivity].
    + destruct k1; discriminate.
  - intros v Hspec Hdict; destruct v; try reflexivity.
    + unfold ObjSpec.parse; rewrite is_object_spec_dict, (Hdict kvs eq_refl); reflexivity.
    + exfalso; eapply Hspec; reflexivity.
  - intros kvs c Hs; unfold ObjSpec.is_direct_object.
    rewrite is_object_spec_dict, Hs.
    destruct (isinstance (VDict kvs) c), (cls_eqb c CDict); reflexivity.
Qed.

(** C10 counterexample: an [ObjectSpec] instance, none of the two dict
    forms, is accepted by [ObjectSpec.parse] rather than refused with
    [InvalidFormatError]. *)
Lemma object_spec_parse_instance_cex :
  ObjSpec.parse (VSpec (VDict []) (VStr "f") VNone) = inr (VSpec (VDict []) (VStr "f") VNone).
Proof. reflexivity. Qed.

(** C3 (amended): when the wrapped callable returns [v], [Factory.__call__]
    records the call and returns [v] if it is an instance of the target
    class. Otherwise it raises the [TypeError] naming the expected class
    and the class of [v].  [None] passes only for the targets [object] and
    [NoneType]. *)
Theorem factory_call_output_check (py_call : nat -> kwargs -> exc + pyval)
    (c : cls) (fn : nat) (kw : kwargs) (lg : log) (v : pyval) :
  py_call fn kw = inr v ->
  factory_call py_call c fn kw lg =
    ((if isinstance v c then inr v else inl (OutputTypeError c (type_of v))), lg ++ [(fn, kw)]) /\
  (isinstance VNone c = true <-> c = CObject \/ c = CNoneType).
Proof.
  intros H; split; [|apply isinstance_none].
  unfold factory_call; rewrite H; destruct (isinstance v c); reflexivity.
Qed.

Lemma factory_call_output_check_witness :
  (fun (_ : nat) (_ : kwargs) => inr (VInt 3) : exc + pyval) 0 [] = inr (VInt 3) /\
  factory_call (fun _ _ => inr (VInt 3)) CInt 0 [] [] =
    ((if isinstance (VInt 3) CInt then inr (VInt 3) else inl (OutputTypeError CInt (type_of (VInt 3)))),
     [] ++ [(0, [])]) /\
  (isinstance VNone CInt = true <-> CInt = CObject \/ CInt = CNoneType).
Proof.
  split; [reflexivity|].
  apply (factory_call_output_check (fun _ _ => inr (VInt 3)) CInt 0 [] [] (VInt 3)).
  reflexivity.
Defined.

(** C3 counterexample: a factory of a user class [A] whose callable returns
    [None] raises the type-mismatch error instead of returning [None]. *)
Lemma factory_call_none_cex :
  factory_call (fun _ _ => inr VNone) (CUser "A" CObject) 0 [] [] =
    (inl (OutputTypeError (CUser "A" CObject) CNoneType), [(0, [])]).
Proof. reflexivity. Qed.

(** *** Claims on registration and merging *)

(** C9 (amended): registering a key already present among the user
    factories without [override] raises [KeyConflictError] and leaves the
    manufacturer unchanged.  With [override], a registration whose
    signature is valid succeeds, for every key: the user factory under the
    key becomes the new one, the other user factories and the builtin ones
    are unchanged. For a key outside the reserved ["afb"] namespace, [get]
    then returns the new factory. *)
Theorem register_conflict_override :
  (forall m key fn fas specs defaults,
     is_Some (m_user_fcts m !! key) ->
     register m key fn fas specs defaults false = (inl (KeyConflictError [key]), m)) /\
  (forall m key fn fas specs defaults sig,
     signature_create fas specs = inr sig ->
     fst (register m key fn fas specs defaults true) = inr tt /\
     m_user_fcts (snd (register m key fn fas specs defaults true)) =
       <[key := Factory (m_cls m) fn sig defaults]> (m_user_fcts m) /\
     m_builtin_fcts (snd (register m key fn fas specs defaults true)) = m_builtin_fcts m /\
     m_cls (snd (register m key fn fas specs defaults true)) = m_cls m /\
     (is_reserved key = false ->
      get (snd (register m key fn fas specs defaults true)) key =
        Some (Factory (m_cls m) fn sig defaults))).
Proof.
  split.
  - intros m key fn fas specs defaults H; unfold register.
    rewrite bool_decide_eq_true_2 by exact H; reflexivity.
  - intros m key fn fas specs defaults sig Hs; unfold register.
    rewrite andb_false_r, Hs; cbn [fst snd].
    split; [reflexivity|]. split; [reflexivity|]. split; [reflexivity|]. split; [reflexivity|].
    intros Hr; unfold get; simpl; rewrite Hr; simplify_map_eq; reflexivity.
Qed.

(** C9 counterexample: registering the user key ["afb/x"] twice, the
    second time with [override], succeeds both times. Yet [get("afb/x")]
    reads the builtin factories and returns [None], not the second
    factory. *)
Lemma register_reserved_override_cex :
  fst (register (snd (register (mfr_of ∅ ∅) "afb/x" 1 fas_none [] [] false))
         "afb/x" 2 fas_none [] [] true) = inr tt /\
  get (snd (register (snd (register (mfr_of ∅ ∅) "afb/x" 1 fas_none [] [] false))
              "afb/x" 2 fas_none [] [] true)) "afb/x" = None.
Proof. vm_compute; split; reflexivity. Qed.

(** C5: with [override] and [ignore_collision] both false,
    [Manufacturer.merge] raises [TypeError] when the merged manufacturer's
    target is not a subclass of the receiver's.  Otherwise, if any
    prospective key [root + sep + key] is already a user factory, it raises
    a single [KeyConflictError]. That error lists exactly the colliding
    prospective keys, and the receiver is unchanged. *)
Theorem merge_collisions_reported :
  (forall m mfr root sep,
     issubclass (m_cls mfr) (m_cls m) = false ->
     exists msg, merge m mfr root false false sep = (inl (TypeError msg), m)) /\
  (forall m mfr root sep,
     issubclass (m_cls mfr) (m_cls m) = true ->
     (exists k, In k (keys mfr) /\ is_Some (m_user_fcts m !! merged_name root k sep)) ->
     exists colls,
       merge m mfr root false false sep = (inl (KeyConflictError colls), m) /\
       (forall n, In n colls <->
          (exists k, In k (keys mfr) /\ n = merged_name root k sep) /\
          is_Some (m_user_fcts m !! n))).
Proof.
  split.
  - intros m mfr root sep H; unfold merge, validate_merge; rewrite H.
    eexists; reflexivity.
  - intros m mfr root sep H [k [Hk Hc]]; unfold merge, validate_merge; rewrite H; simpl.
    set (colls := List.filter _ _).
    assert (Hin : forall n, In n colls <->
              (exists k, In k (keys mfr) /\ n = merged_name root k sep) /\
              is_Some (m_user_fcts m !! n)).
    { intros n; unfold colls; rewrite filter_In, in_map_iff, bool_decide_eq_true.
      split; intros [[k' [E Hk']] Hn]; split; eauto. }
    destruct colls as [|c0 cs] eqn:Ec.
    + exfalso; apply (proj2 (Hin (merged_name root k sep))); eauto.
    + exists (c0 :: cs); split; [reflexivity|exact Hin].
Qed.

Lemma merge_collisions_reported_witness :
  issubclass (m_cls (mfr_of ∅ {[ "k" := fct_plain 0 ]})) (m_cls (mfr_of ∅ {[ "r/k" := fct_plain 0 ]})) = true /\
  (exists k, In k (keys (mfr_of ∅ {[ "k" := fct_plain 0 ]})) /\
     is_Some (m_user_fcts (mfr_of ∅ {[ "r/k" := fct_plain 0 ]}) !! merged_name (Some "r") k "/")) /\
  exists colls,
    merge (mfr_of ∅ {[ "r/k" := fct_plain 0 ]}) (mfr_of ∅ {[ "k" := fct_plain 0 ]}) (Some "r") false false "/" =
      (inl (KeyConflictError colls), mfr_of ∅ {[ "r/k" := fct_plain 0 ]}) /\
    (forall n, In n colls <->
       (exists k, In k (keys (mfr_of ∅ {[ "k" := fct_plain 0 ]})) /\ n = merged_name (Some "r") k "/") /\
       is_Some (m_user_fcts (mfr_of ∅ {[ "r/k" := fct_plain 0 ]}) !! n)).
Proof.
  assert (H1 : issubclass (m_cls (mfr_of ∅ {[ "k" := fct_plain 0 ]}))
                 (m_cls (mfr_of ∅ {[ "r/k" := fct_plain 0 ]})) = true) by reflexivity.
  assert (H2 : exists k, In k (keys (mfr_of ∅ {[ "k" := fct_plain 0 ]})) /\
     is_Some (m_user_fcts (mfr_of ∅ {[ "r/k" := fct_plain 0 ]}) !! merged_name (Some "r") k "/")).
  { exists "k"%string; split; [vm_compute; left; reflexivity | vm_compute; eexists; reflexivity]. }
  split; [exact H1|]; split; [exact H2|].
  exact (proj2 merge_collisions_reported _ _ (Some "r") "/" H1 H2).
Defined.

(** C6 (defect): [_merge] reads each user key of the merged manufacturer
    through [get], which answers keys of the reserved ["afb"] namespace
    from the builtin factories.  If the merged manufacturer has a user
    factory ["afb/custom"] and no builtin of that name, the merge raises
    [TypeError] and ["r/afb/custom"] is never registered.  With a builtin
    ["afb/custom"], that builtin factory is copied instead of the user
    factory. *)
Theorem merge_reserved_user_key :
  fst (merge (mfr_of ∅ ∅) (mfr_of ∅ {[ "afb/custom" := fct_plain 0 ]}) (Some "r") false true "/") =
    inl (TypeError "factory must be callable") /\
  m_user_fcts (snd (merge (mfr_of ∅ ∅) (mfr_of ∅ {[ "afb/custom" := fct_plain 0 ]})
                      (Some "r") false true "/")) !! "r/afb/custom" = None /\
  m_user_fcts (snd (merge (mfr_of ∅ ∅)
                      (mfr_of {[ "afb/custom" := fct_plain 1 ]} {[ "afb/custom" := fct_plain 0 ]})
                      (Some "r") false true "/")) !! "r/afb/custom" = Some (fct_plain 1).
Proof. vm_compute; split; [|split]; reflexivity. Qed.

(** *** Claims on [Manufacturer.make] *)

(** C7 (defect): an unbound manufacturer of [object] whose factory ["f"]
    takes a parameter of class [A] is asked for ["f"] with the object spec
    [{"create": {}}] for that parameter.  [make] raises no [GraphError].
    The root wrapper [{"f": inputs}] is a direct [object], so [make] returns
    it without calling the factory. The same call on an unbound
    manufacturer of a user class [B] raises [GraphError]. *)
Theorem make_unbound_object_manufacturer py_call new_mfr :
  make py_call new_mfr 20 (mfr_of ∅ {[ "f" := fct_needs_A ]}) None (Some (VStr "f"))
    (VDict [(VStr "a", VDict [(VStr "create", VDict [])])]) [] =
    Some (inr (VDict [(VStr "f", VDict [(VStr "a", VDict [(VStr "create", VDict [])])])]), None, []) /\
  make py_call new_mfr 20 (Manufacturer (CUser "B" CObject) ∅ {[ "f" := fct_needs_A ]} None) None
    (Some (VStr "f")) (VDict [(VStr "a", VDict [(VStr "create", VDict [])])]) [] =
    Some (inl GraphError, None, []).
Proof. vm_compute; split; reflexivity. Qed.

(** *** [Signature.create] *)

Lemma str_mem_In k l : str_mem k l = true <-> In k l.
Proof.
  unfold str_mem; rewrite existsb_exists; split.
  - intros [x [Hx E]]; apply String.eqb_eq in E; subst; exact Hx.
  - intros H; exists k; split; [exact H | apply String.eqb_refl].
Qed.

Lemma str_mem_false k l : str_mem k l = false <-> ~ In k l.
Proof.
  rewrite <- str_mem_In; destruct (str_mem k l); intuition congruence.
Qed.

Lemma str_mem_app k l1 l2 : str_mem k (l1 ++ l2) = str_mem k l1 || str_mem k l2.
Proof. unfold str_mem; apply existsb_app. Qed.

Lemma NoDup_app_disjoint {X : Type} (l1 l2 : list X) x :
  List.NoDup (l1 ++ l2) -> In x l1 -> In x l2 -> False.
Proof.
  induction l1 as [|a l1 IH]; simpl; [tauto|].
  intros Hnd; apply List.NoDup_cons_iff in Hnd as [Ha Hnd].
  intros [<-|Hx] Hx2; [apply Ha, in_or_app; right; exact Hx2 | exact (IH Hnd Hx Hx2)].
Qed.

Section OrderedDictFacts.
Context {V : Type}.
Implicit Types (od : list (string * V)) (ks : list string).

Lemma str_mem_keys od k :
  str_mem k (map fst od) = match od_get od k with Some _ => true | None => false end.
Proof.
  induction od as [|[k' v] od IH]; [reflexivity|]; cbn [map fst od_get].
  unfold str_mem; cbn [existsb]; fold (str_mem k (map fst od)).
  rewrite String.eqb_sym; destruct (String.eqb k' k); [reflexivity | exact IH].
Qed.

Lemma od_get_None od k : od_get od k = None <-> ~ In k (map fst od).
Proof.
  rewrite <- str_mem_In, str_mem_keys; destruct (od_get od k); intuition congruence.
Qed.

Lemma od_get_In od k v : List.NoDup (map fst od) -> od_get od k = Some v <-> In (k, v) od.
Proof.
  induction od as [|[k' v'] od IH]; cbn [map fst od_get In]; intros Hnd;
    [split; [discriminate | tauto]|].
  apply List.NoDup_cons_iff in Hnd as [Hn Hnd].
  destruct (String.eqb k' k) eqn:E.
  - apply String.eqb_eq in E; subst k'. split.
    + intros [= <-]; left; reflexivity.
    + intros [[= <-]|Hin]; [reflexivity|].
      exfalso; apply Hn, in_map_iff; exists (k, v); auto.
  - apply String.eqb_neq in E; rewrite IH by exact Hnd; split; [tauto|].
    intros [[= -> _]|Hin]; [congruence | exact Hin].
Qed.

Lemma od_In_unique od k a b :
  List.NoDup (map fst od) -> In (k, a) od -> In (k, b) od -> a = b.
Proof.
  intros Hnd Ha Hb; apply (od_get_In _ _ _ Hnd) in Ha, Hb; congruence.
Qed.

Lemma od_set_fresh od k v : ~ In k (map fst od) -> od_set od k v = od ++ [(k, v)].
Proof.
  induction od as [|[k' v'] od IH]; cbn [od_set map fst In]; intros Hn; [reflexivity|].
  destruct (String.eqb k' k) eqn:E.
  - apply String.eqb_eq in E; subst; tauto.
  - rewrite IH by tauto; reflexivity.
Qed.

Lemma od_without_nil od : od_without od [] = od.
Proof.
  unfold od_without; induction od as [|kv od IH]; [reflexivity|]; cbn [List.filter].
  rewrite IH; reflexivity.
Qed.

Lemma od_without_app od ks1 ks2 :
  od_without (od_without od ks1) ks2 = od_without od (ks1 ++ ks2).
Proof.
  unfold od_without; induction od as [|[k v] od IH]; [reflexivity|]; cbn [List.filter fst].
  rewrite str_mem_app; destruct (str_mem k ks1); cbn [negb orb List.filter fst]; [exact IH|].
  destruct (str_mem k ks2); cbn [negb List.filter fst]; rewrite IH; reflexivity.
Qed.

Lemma od_without_cons_absent od k ks :
  ~ In k (map fst od) -> od_without od (k :: ks) = od_without od ks.
Proof.
  intros Hk; unfold od_without; apply List.filter_ext_in; intros [k' v] Hin; cbn [fst].
  unfold str_mem; cbn [existsb].
  assert (Hne : String.eqb k' k = false).
  { apply String.eqb_neq; intros ->; apply Hk, in_map_iff; exists (k, v); auto. }
  rewrite Hne; reflexivity.
Qed.

Lemma od_get_without od ks k :
  od_get (od_without od ks) k = if str_mem k ks then None else od_get od k.
Proof.
  unfold od_without; induction od as [|[k' v] od IH].
  - destruct (str_mem k ks); reflexivity.
  - cbn [List.filter fst od_get]; destruct (str_mem k' ks) eqn:E1; cbn [negb od_get].
    + destruct (String.eqb k' k) eqn:E; [|exact IH].
      apply String.eqb_eq in E; subst; rewrite IH, E1; reflexivity.
    + destruct (String.eqb k' k) eqn:E; [|exact IH].
      apply String.eqb_eq in E; subst; rewrite E1; reflexivity.
Qed.

Lemma map_fst_without od ks :
  map fst (od_without od ks) = List.filter (fun k => negb (str_mem k ks)) (map fst od).
Proof.
  unfold od_without; induction od as [|[k v] od IH]; [reflexivity|]; cbn [List.filter map fst].
  destruct (negb (str_mem k ks)); cbn [map fst]; rewrite IH; reflexivity.
Qed.

Lemma NoDup_keys_without od ks :
  List.NoDup (map fst od) -> List.NoDup (map fst (od_without od ks)).
Proof. intros H; rewrite map_fst_without; apply List.NoDup_filter, H. Qed.

Lemma In_without od ks kv : In kv (od_without od ks) <-> In kv od /\ ~ In kv.1 ks.
Proof. unfold od_without; rewrite filter_In, negb_true_iff, str_mem_false; tauto. Qed.

Lemma od_pick_cons od k ks :
  od_pick od (k :: ks) = match od_get od k with Some v => [(k, v)] | None => [] end ++ od_pick od ks.
Proof. reflexivity. Qed.

Lemma map_fst_pick od ks :
  map fst (od_pick od ks) =
    List.filter (fun k => match od_get od k with Some _ => true | None => false end) ks.
Proof.
  induction ks as [|k ks IH]; [reflexivity|].
  rewrite od_pick_cons, map_app, IH; cbn [List.filter]; destruct (od_get od k); reflexivity.
Qed.

Lemma NoDup_keys_pick od ks : List.NoDup ks -> List.NoDup (map fst (od_pick od ks)).
Proof. intros H; rewrite map_fst_pick; apply List.NoDup_filter, H. Qed.

Lemma In_pick od ks k v :
  List.NoDup (map fst od) -> In (k, v) (od_pick od ks) <-> In k ks /\ In (k, v) od.
Proof.
  intros Hnd; unfold od_pick; rewrite in_flat_map; split.
  - intros [k0 [Hk0 Hin]]; destruct (od_get od k0) as [v0|] eqn:G; [|destruct Hin].
    destruct Hin as [[= <- <-]|[]]; split; [exact Hk0 | apply od_get_In; assumption].
  - intros [Hk Hin]; exists k; split; [exact Hk|].
    rewrite (proj2 (od_get_In _ _ _ Hnd) Hin); left; reflexivity.
Qed.

Lemma od_pick_ext od1 od2 ks :
  (forall k, In k ks -> od_get od1 k = od_get od2 k) -> od_pick od1 ks = od_pick od2 ks.
Proof.
  induction ks as [|k ks IH]; intros H; [reflexivity|].
  rewrite !od_pick_cons, H by (left; reflexivity).
  rewrite IH; [reflexivity|]; intros k' Hk'; apply H; right; exact Hk'.
Qed.

Lemma od_pick_without od k ks : ~ In k ks -> od_pick (od_without od [k]) ks = od_pick od ks.
Proof.
  intros Hk; apply od_pick_ext; intros k' Hk'; rewrite od_get_without.
  assert (str_mem k' [k] = false) as -> by (apply str_mem_false; intros [<-|[]]; contradiction).
  reflexivity.
Qed.

Lemma od_without_cons k' v od ks :
  od_without ((k', v) :: od) ks =
    if str_mem k' ks then od_without od ks else (k', v) :: od_without od ks.
Proof. unfold od_without; cbn [List.filter fst]; destruct (str_mem k' ks); reflexivity. Qed.

Lemma od_without_notin od ks :
  (forall kv, In kv od -> ~ In kv.1 ks) -> od_without od ks = od.
Proof.
  induction od as [|[k v] od IH]; intros H; [reflexivity|].
  rewrite od_without_cons; destruct (str_mem k ks) eqn:E.
  - apply str_mem_In in E; exfalso; exact (H (k, v) (or_introl eq_refl) E).
  - rewrite IH; [reflexivity|]; intros kv Hin; apply H; right; exact Hin.
Qed.

Lemma od_pop_spec od k :
  List.NoDup (map fst od) ->
  od_pop od k = option_map (fun v => (v, od_without od [k])) (od_get od k).
Proof.
  induction od as [|[k' v] od IH]; cbn [map fst]; intros Hnd; [reflexivity|].
  apply List.NoDup_cons_iff in Hnd as [Hn Hnd]; cbn [od_pop od_get].
  rewrite od_without_cons.
  assert (Hs : str_mem k' [k] = String.eqb k' k)
    by (unfold str_mem; cbn [existsb]; apply orb_false_r).
  rewrite Hs; destruct (String.eqb k' k) eqn:E; cbn [option_map].
  - apply String.eqb_eq in E; subst k'; rewrite od_without_notin; [reflexivity|].
    intros [k' v'] Hin Hk'; cbn [fst In] in Hk'; destruct Hk' as [->|[]].
    apply Hn, in_map_iff; exists (k', v'); auto.
  - rewrite IH by exact Hnd; destruct (od_get od k); reflexivity.
Qed.

End OrderedDictFacts.

Lemma take_required_spec ks req miss (od : list (string * param_spec)) :
  List.NoDup ks -> List.NoDup (map fst od) -> (forall k, In k ks -> ~ In k (map fst req)) ->
  take_required ks req miss od =
    (req ++ od_pick od ks, miss ++ List.filter (fun k => negb (str_mem k (map fst od))) ks,
     od_without od ks).
Proof.
  revert req miss od; induction ks as [|k ks IH]; intros req miss od Hks Hod Hfresh.
  - cbn [take_required List.filter]; rewrite od_without_nil, !app_nil_r; reflexivity.
  - apply List.NoDup_cons_iff in Hks as [Hk Hks].
    cbn [take_required]; rewrite od_pop_spec by exact Hod.
    rewrite od_pick_cons; cbn [List.filter]; rewrite (str_mem_keys od k).
    destruct (od_get od k) as [ps|] eqn:G; cbn [option_map negb app].
    + rewrite od_set_fresh by (apply Hfresh; left; reflexivity).
      rewrite IH; [| exact Hks | apply NoDup_keys_without, Hod |].
      * rewrite od_pick_without, od_without_app by exact Hk.
        assert (Hf : List.filter (fun k' => negb (str_mem k' (map fst (od_without od [k])))) ks =
                     List.filter (fun k' => negb (str_mem k' (map fst od))) ks).
        { apply List.filter_ext_in; intros k' Hk'; rewrite !str_mem_keys, od_get_without.
          assert (str_mem k' [k] = false) as -> by
            (apply str_mem_false; intros [<-|[]]; contradiction).
          reflexivity. }
        rewrite Hf, <- app_assoc; reflexivity.
      * intros k' Hk' Hin; rewrite map_app, in_app_iff in Hin.
        destruct Hin as [Hin|[<-|[]]]; [exact (Hfresh k' (or_intror Hk') Hin) | contradiction].
    + rewrite IH; [| exact Hks | exact Hod | intros k' Hk'; apply Hfresh; right; exact Hk'].
      rewrite od_without_cons_absent by (apply od_get_None, G).
      rewrite <- app_assoc; reflexivity.
Qed.

Lemma take_optional_spec ks acc (od : list (string * param_spec)) :
  List.NoDup ks -> List.NoDup (map fst od) ->
  take_optional ks acc od =
    ((fold_left place (od_pick od ks) acc).1, (fold_left place (od_pick od ks) acc).2,
     od_without od ks).
Proof.
  revert acc od; induction ks as [|k ks IH]; intros acc od Hks Hod.
  - cbn [take_optional]; rewrite od_without_nil; reflexivity.
  - apply List.NoDup_cons_iff in Hks as [Hk Hks].
    cbn [take_optional]; rewrite od_pop_spec by exact Hod; rewrite od_pick_cons.
    destruct (od_get od k) as [ps|] eqn:G; cbn [option_map app fold_left].
    + rewrite IH by (exact Hks || apply NoDup_keys_without, Hod).
      rewrite od_pick_without, od_without_app by exact Hk; reflexivity.
    + rewrite IH by assumption.
      rewrite od_without_cons_absent by (apply od_get_None, G); reflexivity.
Qed.

Lemma place_eq r o k ps :
  place (r, o) (k, ps) = if ps_required ps then (od_set r k ps, o) else (r, od_set o k ps).
Proof. reflexivity. Qed.

Lemma fold_place L r o :
  List.NoDup (map fst L) ->
  (forall k, In k (map fst L) -> ~ In k (map fst r) /\ ~ In k (map fst o)) ->
  fold_left place L (r, o) =
    (r ++ List.filter (fun kp => ps_required kp.2) L,
     o ++ List.filter (fun kp => negb (ps_required kp.2)) L).
Proof.
  revert r o; induction L as [|[k ps] L IH]; intros r o HL Hf.
  - rewrite !app_nil_r; reflexivity.
  - cbn [map fst] in HL; apply List.NoDup_cons_iff in HL as [Hk HL].
    destruct (Hf k (or_introl eq_refl)) as [Hr Ho].
    cbn [fold_left List.filter snd]; rewrite place_eq.
    assert (Hf' : forall k', In k' (map fst L) -> k' <> k).
    { intros k' Hk' ->; contradiction. }
    destruct (ps_required ps); cbn [negb].
    + rewrite od_set_fresh by exact Hr; rewrite IH; [rewrite <- app_assoc; reflexivity | exact HL |].
      intros k' Hk'; rewrite map_app, in_app_iff; cbn [map fst In].
      destruct (Hf k' (or_intror Hk')); pose proof (Hf' k' Hk'); intuition congruence.
    + rewrite od_set_fresh by exact Ho; rewrite IH; [rewrite <- app_assoc; reflexivity | exact HL |].
      intros k' Hk'; rewrite map_app, in_app_iff; cbn [map fst In].
      destruct (Hf k' (or_intror Hk')); pose proof (Hf' k' Hk'); intuition congruence.
Qed.

Lemma fold_od_set_fresh (L od : list (string * param_spec)) :
  List.NoDup (map fst (od ++ L)) -> fold_left (fun od kp => od_set od kp.1 kp.2) L od = od ++ L.
Proof.
  revert od; induction L as [|[k ps] L IH]; intros od H; [rewrite app_nil_r; reflexivity|].
  cbn [fold_left fst snd]; rewrite od_set_fresh.
  - rewrite IH; [rewrite <- app_assoc; reflexivity|rewrite <- app_assoc; exact H].
  - intros Hin; rewrite map_app in H; cbn [map fst] in H.
    apply List.NoDup_remove_2 in H; apply H, in_or_app; left; exact Hin.
Qed.

Lemma filter_partition_perm {X : Type} (f : X -> bool) (l : list X) :
  Permutation (List.filter f l ++ List.filter (fun x => negb (f x)) l) l.
Proof.
  induction l as [|x l IH]; [reflexivity|]; cbn [List.filter].
  destruct (f x); cbn [negb app].
  - apply perm_skip, IH.
  - rewrite <- Permutation_middle; apply perm_skip, IH.
Qed.

Lemma pick_without_perm (od : list (string * param_spec)) ks :
  List.NoDup ks -> List.NoDup (map fst od) -> Permutation (od_pick od ks ++ od_without od ks) od.
Proof.
  intros Hks Hod.
  assert (Hk : List.NoDup (map fst (od_pick od ks ++ od_without od ks))).
  { rewrite map_app; apply List.NoDup_app;
      [apply NoDup_keys_pick, Hks | apply NoDup_keys_without, Hod |].
    intros k Hk1 Hk2; rewrite map_fst_pick, filter_In in Hk1.
    rewrite map_fst_without, filter_In, negb_true_iff, str_mem_false in Hk2; tauto. }
  apply Permutation.NoDup_Permutation;
    [apply (List.NoDup_map_inv fst), Hk | apply (List.NoDup_map_inv fst), Hod |].
  intros [k v]; rewrite in_app_iff, In_pick, In_without by exact Hod; cbn [fst].
  destruct (in_dec string_dec k ks); tauto.
Qed.

Lemma keys_filter_sub {X : Type} (p : string * X -> bool) (l : list (string * X)) k :
  In k (map fst (List.filter p l)) -> In k (map fst l).
Proof.
  rewrite !in_map_iff; intros [x [E Hx]]; apply filter_In in Hx; exists x; tauto.
Qed.

(** C8 (amended): let the callable's parameter names be distinct, and the
    declared signature keys too.  If a required parameter of the callable
    is absent from the declared signature, [Signature.create] raises
    [SignatureError] listing the absent required parameters.  Otherwise, a
    declared key that is no parameter of the callable raises
    [SignatureError] listing those keys, unless the callable has a
    [**kwargs] sink.  Otherwise the result is a signature [req ++ opt]: the
    required entries first, then the optional ones, a permutation of the
    declared specs.  Its required keys are those of [req]: the declared
    entries that are required parameters of the callable, or whose
    [ParameterSpec] says [required].  A key accepted through the sink is
    therefore required when its spec says so, not optional. *)
Theorem signature_create_spec (fas : fn_arg_spec) (specs : list (string * param_spec)) :
  List.NoDup (fas_required fas ++ fas_optional fas) -> List.NoDup (map fst specs) ->
  ((exists k, In k (fas_required fas) /\ ~ In k (map fst specs)) ->
   signature_create fas specs =
     inl (SignatureError "Missing required parameters"
            (List.filter (fun k => negb (str_mem k (map fst specs))) (fas_required fas)))) /\
  ((forall k, In k (fas_required fas) -> In k (map fst specs)) ->
   (exists k, In k (map fst specs) /\ ~ In k (fas_required fas ++ fas_optional fas)) ->
   fas_kwargs fas = false ->
   signature_create fas specs =
     inl (SignatureError "No such parameters"
            (List.filter (fun k => negb (str_mem k (fas_required fas ++ fas_optional fas)))
               (map fst specs)))) /\
  ((forall k, In k (fas_required fas) -> In k (map fst specs)) ->
   (fas_kwargs fas = true \/
    forall k, In k (map fst specs) -> In k (fas_required fas ++ fas_optional fas)) ->
   exists req opt,
     signature_create fas specs = inr (Signature (req ++ opt) (map fst req)) /\
     Permutation (req ++ opt) specs /\
     (forall k ps, In (k, ps) req <->
        In (k, ps) specs /\ (In k (fas_required fas) \/ ps_required ps = true))).
Proof.
  destruct fas as [R O kw]; cbn [fas_required fas_optional fas_kwargs].
  intros Hnd Hod.
  pose proof (List.NoDup_app_remove_r _ _ Hnd) as HR.
  pose proof (List.NoDup_app_remove_l _ _ Hnd) as HO.
  unfold signature_create; cbn [fas_required fas_optional fas_kwargs].
  rewrite take_required_spec by (exact HR || exact Hod || (intros k _ [])).
  cbn [app].
  assert (Hmiss : (forall k, In k R -> In k (map fst specs)) ->
             List.filter (fun k => negb (str_mem k (map fst specs))) R = []).
  { intros Hall; destruct (List.filter _ R) as [|m ms] eqn:Em; [reflexivity|exfalso].
    assert (Hm : In m (List.filter (fun k => negb (str_mem k (map fst specs))) R))
      by (rewrite Em; left; reflexivity).
    apply filter_In in Hm as [Hm Hn]; apply negb_true_iff, str_mem_false in Hn.
    exact (Hn (Hall m Hm)). }
  assert (HRk : forall k, In k (map fst (od_pick specs R)) -> In k R).
  { intros k; rewrite map_fst_pick, filter_In; tauto. }
  assert (HL1k : forall k, In k (map fst (od_pick (od_without specs R) O)) -> In k O).
  { intros k; rewrite map_fst_pick, filter_In; tauto. }
  assert (HS2k : forall k, In k (map fst (od_without specs (R ++ O))) -> ~ In k (R ++ O)).
  { intros k; rewrite map_fst_without, filter_In, negb_true_iff, str_mem_false; tauto. }
  split; [|split].
  - intros [k [Hk Hn]].
    destruct (List.filter _ R) as [|m ms] eqn:Em; [exfalso|reflexivity].
    assert (Hk' : In k (List.filter (fun k => negb (str_mem k (map fst specs))) R)).
    { apply filter_In; split; [exact Hk|]; apply negb_true_iff, str_mem_false, Hn. }
    rewrite Em in Hk'; destruct Hk'.
  - intros Hall [k [Hk Hn]] Hkw; rewrite (Hmiss Hall); cbn [null negb].
    rewrite take_optional_spec by (exact HO || apply NoDup_keys_without, Hod).
    rewrite od_without_app, Hkw.
    destruct (od_without specs (R ++ O)) as [|s ss] eqn:Es.
    + exfalso; apply in_map_iff in Hk as [[k' v] [E Hin]]; cbn [fst] in E; subst k'.
      assert (Hkv : In (k, v) (od_without specs (R ++ O))) by (apply In_without; auto).
      rewrite Es in Hkv; destruct Hkv.
    + cbn [null negb andb]; rewrite <- Es, map_fst_without; reflexivity.
  - intros Hall Hcase; rewrite (Hmiss Hall); cbn [null negb].
    rewrite take_optional_spec by (exact HO || apply NoDup_keys_without, Hod).
    rewrite (fold_place (od_pick (od_without specs R) O)).
    2: { apply NoDup_keys_pick, HO. }
    2: { intros k Hk; split; [|intros []].
         intros Hk'; exact (NoDup_app_disjoint R O k Hnd (HRk k Hk') (HL1k k Hk)). }
    cbn [fst snd app]; rewrite od_without_app.
    assert (Hc : negb (null (od_without specs (R ++ O))) && negb kw = false).
    { destruct Hcase as [-> | Hin]; [apply andb_false_r|].
      destruct (od_without specs (R ++ O)) as [|[k v] ss] eqn:Es; [reflexivity|exfalso].
      assert (Hkv : In (k, v) (od_without specs (R ++ O))) by (rewrite Es; left; reflexivity).
      apply In_without in Hkv as [Hkv Hn]; apply Hn, Hin, in_map_iff; exists (k, v); auto. }
    rewrite Hc.
    rewrite (fold_place (od_without specs (R ++ O))).
    2: { apply NoDup_keys_without, Hod. }
    2: { intros k Hk; pose proof (HS2k k Hk) as Hn; rewrite in_app_iff in Hn.
         rewrite map_app, in_app_iff; split.
         - intros [H1|H1]; [exact (Hn (or_introl (HRk k H1)))|].
           exact (Hn (or_intror (HL1k k (keys_filter_sub _ _ _ H1)))).
         - intros H1; exact (Hn (or_intror (HL1k k (keys_filter_sub _ _ _ H1)))). }
    cbn [fst snd].
    set (L1 := od_pick (od_without specs R) O).
    set (S2 := od_without specs (R ++ O)).
    assert (Hperm : Permutation
      (((od_pick specs R ++ List.filter (fun kp => ps_required kp.2) L1) ++
         List.filter (fun kp => ps_required kp.2) S2) ++
       (List.filter (fun kp => negb (ps_required kp.2)) L1 ++
         List.filter (fun kp => negb (ps_required kp.2)) S2)) specs).
    { set (fr1 := List.filter (fun kp => ps_required kp.2) L1).
      set (fr2 := List.filter (fun kp => ps_required kp.2) S2).
      set (fn1 := List.filter (fun kp => negb (ps_required kp.2)) L1).
      set (fn2 := List.filter (fun kp => negb (ps_required kp.2)) S2).
      transitivity (od_pick specs R ++ (fr1 ++ fn1) ++ (fr2 ++ fn2)).
      { rewrite <- !app_assoc; apply Permutation_app_head, Permutation_app_head.
        rewrite (app_assoc fr2 fn1 fn2), (app_assoc fn1 fr2 fn2).
        apply Permutation_app_tail, Permutation_app_comm. }
      transitivity (od_pick specs R ++ L1 ++ S2).
      { apply Permutation_app_head, Permutation_app; apply filter_partition_perm. }
      transitivity (od_pick specs R ++ od_without specs R).
      { apply Permutation_app_head; unfold L1, S2; rewrite <- od_without_app.
        apply pick_without_perm; [exact HO | apply NoDup_keys_without, Hod]. }
      apply pick_without_perm; [exact HR | exact Hod]. }
    rewrite fold_od_set_fresh
      by exact (Permutation_NoDup (Permutation_map fst (Permutation_sym Hperm)) Hod).
    eexists _, _; split; [reflexivity|]; split; [exact Hperm|].
    intros k ps; unfold L1, S2.
    rewrite !in_app_iff, !filter_In, In_pick by exact Hod.
    rewrite In_pick by (apply NoDup_keys_without, Hod).
    rewrite !In_without; cbn [fst snd]; rewrite !in_app_iff.
    destruct (in_dec string_dec k R), (in_dec string_dec k O); tauto.
Qed.

Lemma signature_create_spec_witness :
  List.NoDup (fas_required fas_ab ++ fas_optional fas_ab) /\ List.NoDup (map fst specs_ax) /\
  exists req opt,
    signature_create fas_ab specs_ax = inr (Signature (req ++ opt) (map fst req)) /\
    Permutation (req ++ opt) specs_ax /\
    (forall k ps, In (k, ps) req <->
       In (k, ps) specs_ax /\ (In k (fas_required fas_ab) \/ ps_required ps = true)).
Proof.
  assert (H1 : List.NoDup (fas_required fas_ab ++ fas_optional fas_ab))
    by (cbn; repeat constructor; cbn; intuition congruence).
  assert (H2 : List.NoDup (map fst specs_ax))
    by (cbn; repeat constructor; cbn; intuition congruence).
  split; [exact H1|]; split; [exact H2|].
  apply (proj2 (proj2 (signature_create_spec fas_ab specs_ax H1 H2))).
  - cbn; intros k [<-|[]]; left; reflexivity.
  - left; reflexivity.
Defined.

(** C8 counterexample: for [def fn( **kwargs)] and the declared spec
    [x] marked [required], [Signature.create] accepts ["x"] through the
    sink as a required parameter, not as an optional one. *)
Lemma signature_create_sink_required_cex :
  signature_create (FnArgSpec [] [] true) [("x"%string, ps_int_required)] =
    inr (Signature [("x"%string, ps_int_required)] ["x"%string]).
Proof. reflexivity. Qed.

(** *** The two phases of [Manufacturer._make] *)

Lemma dict_set_fresh acc k v :
  (forall k' v', In (k', v') acc -> pyval_eqb k' k = false) -> dict_set acc k v = acc ++ [(k, v)].
Proof.
  induction acc as [|[k' v'] acc IH]; intros H; [reflexivity|]; cbn [dict_set].
  rewrite (H k' v' (or_introl eq_refl)), IH; [reflexivity|].
  intros k'' v'' Hin; apply (H k'' v''); right; exact Hin.
Qed.

Lemma pack_dict_flat acc kvs :
  forallb (fun kv => hashable kv.1) kvs = true -> keys_distinct kvs = true ->
  (forall k' v', In (k', v') acc -> forall kv, In kv kvs -> pyval_eqb k' kv.1 = false) ->
  TypeSpecs.pack_dict acc (flat_map (fun kv => [kv.1; kv.2]) kvs) = inr (acc ++ kvs).
Proof.
  revert acc; induction kvs as [|[k v] kvs IH]; intros acc Hh Hd Hf.
  - rewrite app_nil_r; reflexivity.
  - cbn [forallb fst] in Hh; apply andb_true_iff in Hh as [Hk Hh].
    cbn [keys_distinct] in Hd; apply andb_true_iff in Hd as [Hk2 Hd].
    cbn [flat_map fst snd app TypeSpecs.pack_dict]; rewrite Hk.
    rewrite dict_set_fresh by (intros k' v' Hin; exact (Hf k' v' Hin (k, v) (or_introl eq_refl))).
    rewrite IH; [rewrite <- app_assoc; reflexivity | exact Hh | exact Hd |].
    intros k' v' Hin kv Hkv; apply in_app_iff in Hin as [Hin|[[= <- <-]|[]]].
    + exact (Hf k' v' Hin kv (or_intror Hkv)).
    + rewrite forallb_forall in Hk2; apply negb_true_iff, (Hk2 kv Hkv).
Qed.

Lemma even_flat (kvs : list (pyval * pyval)) :
  Nat.even (length (flat_map (fun kv => [kv.1; kv.2]) kvs)) = true.
Proof. induction kvs as [|kv kvs IH]; [reflexivity|]; exact IH. Qed.

Lemma dict_pairs_tuples tk tv (kvs : list (pyval * pyval)) :
  TypeSpecs.dict_pairs tk tv (map (fun kv => VTuple [kv.1; kv.2]) kvs) =
    (flat_map (fun kv => [TypeSpecs.CITS tk kv.1; TypeSpecs.CITS tv kv.2]) kvs, None).
Proof.
  induction kvs as [|[k v] kvs IH]; [reflexivity|].
  cbn [map TypeSpecs.dict_pairs fst snd]; rewrite IH; reflexivity.
Qed.

Lemma realized_tuple specs l :
  realized (TSTuple specs) (VTuple l) = true -> Forall2 (fun t x => realized t x = true) specs l.
Proof.
  revert l; induction specs as [|t specs IH]; intros [|x l] H; cbn in H; try discriminate;
    constructor.
  - apply andb_true_iff in H; exact (proj1 H).
  - apply IH; apply andb_true_iff in H; exact (proj2 H).
Qed.




Section Construction.
Variable py_call : nat -> kwargs -> exc + pyval.
Variable new_mfr : cls -> manufacturer.

Local Abbreviation ceval := (Algorithms.eval (create_exec_tree_proc new_mfr)).
Local Abbreviation ceval_gen := (Algorithms.eval_gen (create_exec_tree_proc new_mfr)).
Local Abbreviation reval := (Algorithms.eval (run_exec_tree_proc py_call)).
Local Abbreviation reval_gen := (Algorithms.eval_gen (run_exec_tree_proc py_call)).

(** Items each built, without change of state, into a tree that the second
    phase turns into a value without calls. *)
Lemma gen_builds items l st lg :
  Forall2 (fun it x => exists t, ceval it st (inr t) st /\ reval t lg (inr x) lg) items l ->
  exists ts, ceval_gen items None st (inr ts) st /\ reval_gen ts None lg (inr l) lg.
Proof.
  induction 1 as [|it x items l [t [H1 H2]] _ [ts [IH1 IH2]]].
  - exists []; split; constructor.
  - exists (t :: ts); split; eapply Algorithms.eg_cons; eassumption.
Qed.

Lemma create_direct c v st :
  ObjSpec.is_direct_object v c = true ->
  create_exec_tree_proc new_mfr (TypeSpecs.CICls c v) st = (inr (Algorithms.ItemResult v), st).
Proof. intros H; unfold create_exec_tree_proc; destruct v; try reflexivity; rewrite H; reflexivity. Qed.

Lemma run_item v lg :
  is_fncall v = false -> run_exec_tree_proc py_call v lg = (inr (Algorithms.ItemResult v), lg).
Proof. destruct v; try reflexivity; discriminate. Qed.

Lemma create_cits ts m items args st st' :
  TypeSpecs.parse_manifest ts m = Algorithms.Gen items None ->
  ceval_gen items None st (inr args) st' ->
  ceval (TypeSpecs.CITS ts m) st (inr (VCall (FPack ts) args)) st'.
Proof.
  intros H1 H2; eapply AlgorithmsFacts.ev_node_eq; [reflexivity | rewrite H1; exact H2 | reflexivity].
Qed.

Lemma run_fpack ts args xs lg r :
  reval_gen args None lg (inr xs) lg -> TypeSpecs.pack ts xs = r ->
  reval (VCall (FPack ts) args) lg r lg.
Proof.
  intros H1 H2; eapply AlgorithmsFacts.ev_node_eq; [reflexivity | exact H1 |].
  cbn [apply_fncall]; rewrite H2; reflexivity.
Qed.

(** A value already realized for its type spec is rebuilt unchanged, with
    no change of state and no call. *)
Lemma realize_ok ts : forall v st lg, realized ts v = true ->
  exists t, ceval (TypeSpecs.CITS ts v) st (inr t) st /\ reval t lg (inr v) lg.
Proof.
  induction ts as [c|t IH|tk tv IHk IHv|specs IH] using typespec_ind'; intros v st lg Hr.
  - cbn [realized] in Hr; apply andb_true_iff in Hr as [Hd Hf]; apply negb_true_iff in Hf.
    exists (VCall (FPack (TSClass c)) [v]); split.
    + apply (create_cits _ _ [TypeSpecs.CICls c v]).
      * cbn [TypeSpecs.parse_manifest]; rewrite Hd; reflexivity.
      * eapply Algorithms.eg_cons; [|constructor].
        apply Algorithms.ev_item, create_direct, Hd.
    + apply (run_fpack (TSClass c) [v] [v]); [|reflexivity].
      eapply Algorithms.eg_cons; [|constructor].
      apply Algorithms.ev_item, run_item, Hf.
  - destruct v as [| | | | |l| | | |]; cbn [realized] in Hr; try discriminate.
    assert (HF : Forall2 (fun it x => exists t', ceval it st (inr t') st /\ reval t' lg (inr x) lg)
                   (map (TypeSpecs.CITS t) l) l).
    { induction l as [|x l IHl]; [constructor|].
      cbn [forallb] in Hr; apply andb_true_iff in Hr as [Hx Hl].
      constructor; [apply IH, Hx | apply IHl, Hl]. }
    destruct (gen_builds _ _ _ _ HF) as [args [H1 H2]].
    exists (VCall (FPack (TSList t)) args); split.
    + apply (create_cits _ _ (map (TypeSpecs.CITS t) l)); [reflexivity | exact H1].
    + apply (run_fpack _ _ l); [exact H2 | reflexivity].
  - destruct v as [| | | | | | kvs | | |]; cbn [realized] in Hr; try discriminate.
    apply andb_true_iff in Hr as [Hr Hd].
    assert (HF : Forall2 (fun it x => exists t', ceval it st (inr t') st /\ reval t' lg (inr x) lg)
                   (flat_map (fun kv => [TypeSpecs.CITS tk kv.1; TypeSpecs.CITS tv kv.2]) kvs)
                   (flat_map (fun kv => [kv.1; kv.2]) kvs)).
    { clear Hd; induction kvs as [|[k x] kvs IHl]; [constructor|].
      cbn [forallb fst snd] in Hr; apply andb_true_iff in Hr as [Hx Hl].
      apply andb_true_iff in Hx as [Hx _]; apply andb_true_iff in Hx as [Hk Hx].
      cbn [flat_map fst snd app].
      constructor; [apply IHk, Hk|]; constructor; [apply IHv, Hx | apply IHl, Hl]. }
    destruct (gen_builds _ _ _ _ HF) as [args [H1 H2]].
    exists (VCall (FPack (TSDict tk tv)) args); split.
    + apply (create_cits _ _ (flat_map (fun kv => [TypeSpecs.CITS tk kv.1; TypeSpecs.CITS tv kv.2]) kvs));
        [|exact H1].
      cbn [TypeSpecs.parse_manifest]; rewrite dict_pairs_tuples; reflexivity.
    + apply (run_fpack _ _ _ _ _ H2); cbn [TypeSpecs.pack]; rewrite even_flat.
      rewrite (pack_dict_flat [] kvs); [reflexivity | | exact Hd | intros _ _ []].
      apply forallb_forall; intros kv Hkv; rewrite forallb_forall in Hr.
      specialize (Hr kv Hkv); apply andb_true_iff in Hr; exact (proj2 Hr).
  - destruct v as [| | | | |l| | | |]; try discriminate.
    apply realized_tuple in Hr.
    assert (HF : Forall2 (fun it x => exists t', ceval it st (inr t') st /\ reval t' lg (inr x) lg)
                   (zip_with TypeSpecs.CITS specs l) l).
    { clear - IH Hr; induction Hr as [|t x specs l Hx _ IHl]; [constructor|].
      apply Forall_cons_iff in IH as [IHt IH].
      constructor; [apply IHt, Hx | apply IHl, IH]. }
    destruct (gen_builds _ _ _ _ HF) as [args [H1 H2]].
    exists (VCall (FPack (TSTuple specs)) args); split.
    + apply (create_cits _ _ (zip_with TypeSpecs.CITS specs l)); [|exact H1].
      cbn [TypeSpecs.parse_manifest]; rewrite (Forall2_length _ _ _ Hr), Nat.eqb_refl; reflexivity.
    + apply (run_fpack _ _ l); [exact H2 | reflexivity].
Qed.


(** The two phases of [_make] compose. *)
Lemma exec_tree_of_evals seed st t st' lg r lg' :
  ceval seed st (inr t) st' -> reval t lg r lg' ->
  exists k, forall n, exec_tree py_call new_mfr (k + n) seed st lg = Some (r, st', lg').
Proof.
  intros H1 H2.
  destruct (AlgorithmsFacts.dfs_refines _ VNone _ _ _ _ H1) as [[k1 Hk1] _].
  destruct (AlgorithmsFacts.dfs_refines _ VNone _ _ _ _ H2) as [[k2 Hk2] _].
  exists (k1 + k2); intros n; unfold exec_tree.
  replace (k1 + k2 + n) with (k1 + (k2 + n)) by lia; rewrite Hk1.
  cbv beta iota.
  replace (k1 + (k2 + n)) with (k2 + (k1 + n)) by lia; rewrite Hk2.
  reflexivity.
Qed.

(** A raise of the first phase is the result of [_make]. *)
Lemma exec_tree_of_raise seed st e st' lg :
  ceval seed st (inl e) st' ->
  exists k, forall n, exec_tree py_call new_mfr (k + n) seed st lg = Some (inl e, st', lg).
Proof.
  intros H1.
  destruct (AlgorithmsFacts.dfs_refines _ VNone _ _ _ _ H1) as [[k1 Hk1] _].
  exists k1; intros n; unfold exec_tree; rewrite Hk1; reflexivity.
Qed.

(** The manifest nested [n] deep builds the tuple nested [n] deep. *)
Lemma nest_ok n st lg :
  exists t, ceval (TypeSpecs.CITS (nest_ts n) (nest_list n)) st (inr t) st /\
            reval t lg (inr (nest_tuple n)) lg.
Proof.
  induction n as [|n [t [H1 H2]]].
  - apply realize_ok; reflexivity.
  - exists (VCall (FPack (TSList (nest_ts n))) [t]); split.
    + apply (create_cits _ _ [TypeSpecs.CITS (nest_ts n) (nest_list n)]); [reflexivity|].
      eapply Algorithms.eg_cons; [exact H1 | constructor].
    + apply (run_fpack _ _ [nest_tuple n]); [|reflexivity].
      eapply Algorithms.eg_cons; [exact H2 | constructor].
Qed.

Lemma kwargs_of_items_val kw :
  kwargs_of_items (map (fun kv => (VStr kv.1, kv.2)) kw) = inr kw.
Proof.
  induction kw as [|[k v] kw IH]; [reflexivity|].
  cbn [map kwargs_of_items fst snd]; rewrite IH; reflexivity.
Qed.


Lemma kw_set_keys d k v :
  map fst (kw_set d k v) = if str_mem k (map fst d) then map fst d else map fst d ++ [k].
Proof.
  induction d as [|[k' v'] d IH]; [reflexivity|]; unfold str_mem in *; cbn [kw_set map fst existsb].
  destruct (String.eqb k' k) eqn:E.
  - apply String.eqb_eq in E; subst k'; rewrite String.eqb_refl; reflexivity.
  - cbn [map fst]; rewrite IH, String.eqb_sym, E; cbn [orb].
    destruct (existsb (String.eqb k) (map fst d)); reflexivity.
Qed.



Lemma merge_inputs_ok f kw :
  (forall k, In k (map fst (kw_update (fct_defaults f) kw)) -> In k (sig_names (fct_sig f))) ->
  (forall r, In r (sig_required (fct_sig f)) -> In r (map fst (kw_update (fct_defaults f) kw))) ->
  merge_inputs f kw = inr (kw_update (fct_defaults f) kw).
Proof.
  intros Hn Hr; unfold merge_inputs.
  destruct (List.filter (fun k => negb (str_mem k (sig_names (fct_sig f))))
              (map fst (kw_update (fct_defaults f) kw))) as [|k ks] eqn:E1.
  - cbn [null negb].
    destruct (List.filter (fun k => negb (str_mem k (map fst (kw_update (fct_defaults f) kw))))
                (sig_required (fct_sig f))) as [|k ks] eqn:E2; [reflexivity|].
    exfalso; assert (Hin : In k (k :: ks)) by (left; reflexivity).
    rewrite <- E2, filter_In in Hin; destruct Hin as [Hin Hm].
    apply negb_true_iff, str_mem_false in Hm; exact (Hm (Hr k Hin)).
  - exfalso; assert (Hin : In k (k :: ks)) by (left; reflexivity).
    rewrite <- E1, filter_In in Hin; destruct Hin as [Hin Hm].
    apply negb_true_iff, str_mem_false in Hm; exact (Hm (Hn k Hin)).
Qed.



Lemma flat_map_str_keys (merged : kwargs) :
  flat_map (fun kv => [VStr kv.1; kv.2]) merged =
    flat_map (fun kv => [kv.1; kv.2]) (map (fun kv => (VStr kv.1, kv.2)) merged).
Proof.
  induction merged as [|kv merged IH]; [reflexivity|]; cbn [flat_map map]; rewrite IH; reflexivity.
Qed.

Lemma keys_distinct_str (merged : kwargs) :
  List.NoDup (map fst merged) -> keys_distinct (map (fun kv => (VStr kv.1, kv.2)) merged) = true.
Proof.
  induction merged as [|[k v] merged IH]; intros H; [reflexivity|].
  cbn [map fst] in H; inversion H as [|? ? Hk Hd]; subst.
  cbn [map keys_distinct fst snd]; rewrite (IH Hd), andb_true_r.
  apply forallb_forall; intros kv Hkv; apply in_map_iff in Hkv as [[k' v'] [<- Hin]].
  cbn [fst pyval_eqb]; apply negb_true_iff, String.eqb_neq.
  intros ->; apply Hk, in_map_iff; exists (k', v'); split; [reflexivity | exact Hin].
Qed.

Lemma call_fuse_flat c fn (merged : kwargs) lg :
  List.NoDup (map fst merged) ->
  call_as_fuse_fn py_call c fn (flat_map (fun kv => [VStr kv.1; kv.2]) merged) lg =
    factory_call py_call c fn merged lg.
Proof.
  intros Hd; unfold call_as_fuse_fn, varargs_to_kwargs; rewrite flat_map_str_keys.
  unfold Nat.odd; rewrite even_flat; cbn [negb].
  rewrite (pack_dict_flat [] (map (fun kv => (VStr kv.1, kv.2)) merged)).
  - rewrite app_nil_l, kwargs_of_items_val; reflexivity.
  - apply forallb_forall; intros kv Hkv; apply in_map_iff in Hkv as [? [<- _]]; reflexivity.
  - exact (keys_distinct_str merged Hd).
  - intros ? ? [].
Qed.




End Construction.

(** A successful parse of a dict manifest means the dict has a spec shape. *)
Lemma parse_dict_is_spec kvs x :
  ObjSpec.parse (VDict kvs) = inr x -> ObjSpec.is_object_spec (VDict kvs) = true.
Proof.
  unfold ObjSpec.parse; intros H.
  destruct (ObjSpec.is_object_spec (VDict kvs)) eqn:E; [reflexivity|].
  cbn in H; discriminate.
Qed.

(** A dict of either object-spec shape parses to an object spec. *)
Lemma parse_spec_shape kvs :
  spec_shape kvs = true ->
  exists key inputs, ObjSpec.parse (VDict kvs) = inr (VSpec (VDict kvs) key inputs).
Proof.
  intros Hs.
  destruct kvs as [|[k1 v1] [|[k2 v2] [|kv3 rest]]]; try discriminate.
  - exists k1, v1; unfold ObjSpec.parse; rewrite is_object_spec_dict, Hs; reflexivity.
  - unfold spec_shape in Hs; destruct k1;
      try (apply orb_true_iff in Hs;
           destruct Hs as [Hs|Hs]; apply andb_true_iff in Hs; destruct Hs as [E1 E2];
           apply is_str_eq in E1, E2; discriminate).
    apply orb_true_iff in Hs; destruct Hs as [Hs|Hs]; apply andb_true_iff in Hs;
      destruct Hs as [E1 E2]; apply is_str_eq in E1, E2; injection E1 as ->; subst k2.
    + exists v1, v2; reflexivity.
    + exists v2, v1; reflexivity.
  - destruct k1; discriminate.
Qed.

Lemma parse_manifest_dict_spec kvs spec :
  ObjSpec.parse (VDict kvs) = inr spec ->
  TypeSpecs.parse_manifest (TSClass CDict) (VDict kvs) =
    Algorithms.Gen [TypeSpecs.CICls CDict spec] None.
Proof.
  intros Hp; cbn [TypeSpecs.parse_manifest].
  assert (Hd : ObjSpec.is_direct_object (VDict kvs) CDict = false)
    by (unfold ObjSpec.is_direct_object; rewrite (parse_dict_is_spec kvs spec Hp); reflexivity).
  rewrite Hd, Hp; reflexivity.
Qed.

(** *** [PostorderDFS] and deep manifests *)

Local Set Warnings "-abstract-large-number".

(** C2: [PostorderDFS] computes the recursive postorder fold [eval] (an
    item evaluates to itself, a node to its fuse function on its children's
    results in order): on every finite tree it halts, given enough
    iterations, with the fold's result and state, and every run that halts
    returns them. Consequently [_make]'s two phases, on the manifest of
    single-element lists nested 10000 deep under the type spec nested
    10000 deep, return the tuple nested 10000 deep. *)
Theorem postorder_dfs_refines_fold :
  (forall (A R St : Type) (proc_fn : A -> St -> (exc + Algorithms.proc_result A R St) * St)
          (none : R) seed st res st',
     Algorithms.eval proc_fn seed st res st' ->
     (exists k, forall n, Algorithms.postorder_dfs proc_fn none (k + n) seed st = Some (res, st')) /\
     (forall k out, Algorithms.postorder_dfs proc_fn none k seed st = Some out -> out = (res, st'))) /\
  (forall py_call new_mfr (st : option broker) (lg : log), exists k, forall n,
     exec_tree py_call new_mfr (k + n) (TypeSpecs.CITS (nest_ts 10000) (nest_list 10000)) st lg =
       Some (inr (nest_tuple 10000), st, lg)).
Proof.
  split.
  - intros A R St proc_fn none seed st res st' H.
    exact (AlgorithmsFacts.dfs_refines proc_fn none seed st res st' H).
  - intros py_call new_mfr st lg.
    destruct (nest_ok py_call new_mfr 10000 st lg) as [t [H1 H2]].
    exact (exec_tree_of_evals py_call new_mfr _ _ _ _ _ _ _ H1 H2).
Qed.

(** *** Dict parameters *)

(** C4: for the type spec [dict] and a dict manifest [m]: if [m] has
    neither object-spec shape, the construction returns [m] itself; if it
    parses to an object spec whose string key has no factory in the dict
    manufacturer of the broker, it returns [m] itself as well; if the key
    has a factory, [m] is taken as an object spec of that factory. On a
    manufacturer bound to no broker, a dict manifest of either object-spec
    shape raises [GraphError]. *)
Theorem dict_param_object_spec py_call new_mfr :
  (forall kvs st lg, spec_shape kvs = false ->
     exists k, forall n,
       exec_tree py_call new_mfr (k + n) (TypeSpecs.CITS (TSClass CDict) (VDict kvs)) st lg =
         Some (inr (VDict kvs), st, lg)) /\
  (forall kvs bk key inputs lg,
     ObjSpec.parse (VDict kvs) = inr (VSpec (VDict kvs) (VStr key) inputs) ->
     get (fst (get_or_create new_mfr bk CDict)) key = None ->
     exists k, forall n,
       exec_tree py_call new_mfr (k + n) (TypeSpecs.CITS (TSClass CDict) (VDict kvs)) (Some bk) lg =
         Some (inr (VDict kvs), Some (snd (get_or_create new_mfr bk CDict)), lg)) /\
  (forall kvs bk key inputs f,
     ObjSpec.parse (VDict kvs) = inr (VSpec (VDict kvs) (VStr key) inputs) ->
     get (fst (get_or_create new_mfr bk CDict)) key = Some f ->
     TypeSpecs.parse_manifest (TSClass CDict) (VDict kvs) =
       Algorithms.Gen [TypeSpecs.CICls CDict (VSpec (VDict kvs) (VStr key) inputs)] None /\
     create_exec_tree_proc new_mfr (TypeSpecs.CICls CDict (VSpec (VDict kvs) (VStr key) inputs))
       (Some bk) =
       (inr (Algorithms.NodeResult (stub (FFactory (fct_cls f) (fct_fn f))) (parse_inputs f inputs)),
        Some (snd (get_or_create new_mfr bk CDict)))) /\
  (forall kvs lg, spec_shape kvs = true ->
     exists k, forall n,
       exec_tree py_call new_mfr (k + n) (TypeSpecs.CITS (TSClass CDict) (VDict kvs)) None lg =
         Some (inl GraphError, None, lg)).
Proof.
  split; [|split; [|split]].
  - intros kvs st lg Hs.
    assert (Hr : realized (TSClass CDict) (VDict kvs) = true)
      by (cbn [realized]; unfold ObjSpec.is_direct_object; rewrite is_object_spec_dict, Hs;
          reflexivity).
    destruct (realize_ok py_call new_mfr _ _ st lg Hr) as [t [H1 H2]].
    exact (exec_tree_of_evals py_call new_mfr _ _ _ _ _ _ _ H1 H2).
  - intros kvs bk key inputs lg Hp Hg.
    destruct (get_or_create new_mfr bk CDict) as [mfr bk'] eqn:Eg; cbn [fst snd] in Hg |- *.
    assert (H1 : Algorithms.eval (create_exec_tree_proc new_mfr)
                   (TypeSpecs.CITS (TSClass CDict) (VDict kvs)) (Some bk)
                   (inr (VCall (FPack (TSClass CDict)) [VDict kvs])) (Some bk')).
    { apply (create_cits new_mfr _ _ _ _ _ _ (parse_manifest_dict_spec _ _ Hp)).
      eapply Algorithms.eg_cons; [|constructor].
      apply Algorithms.ev_item.
      unfold create_exec_tree_proc; cbv beta iota zeta; rewrite Eg; cbn -[get].
      rewrite Hg; reflexivity. }
    assert (H2 : Algorithms.eval (run_exec_tree_proc py_call)
                   (VCall (FPack (TSClass CDict)) [VDict kvs]) lg (inr (VDict kvs)) lg).
    { apply (run_fpack py_call _ _ [VDict kvs]); [|reflexivity].
      eapply Algorithms.eg_cons; [|constructor].
      apply Algorithms.ev_item; reflexivity. }
    exact (exec_tree_of_evals py_call new_mfr _ _ _ _ _ _ _ H1 H2).
  - intros kvs bk key inputs f Hp Hg; split; [exact (parse_manifest_dict_spec _ _ Hp)|].
    destruct (get_or_create new_mfr bk CDict) as [mfr bk'] eqn:Eg; cbn [fst snd] in Hg |- *.
    unfold create_exec_tree_proc; cbv beta iota zeta; rewrite Eg; cbn -[get].
    rewrite Hg; reflexivity.
- intros kvs lg Hs.
    destruct (parse_spec_shape kvs Hs) as [key [inputs Hp]].
    apply (exec_tree_of_raise py_call new_mfr).
    eapply Algorithms.ev_node_raise; [reflexivity|].
    rewrite (parse_manifest_dict_spec _ _ Hp); cbn [Algorithms.gen_items Algorithms.gen_raise].
    apply Algorithms.eg_cons_raise, Algorithms.ev_raise; reflexivity.
Qed.

(** C4 counterexample: on a manufacturer bound to no broker, the dict
    manifest [{"k": {}}] for a [dict] parameter is neither used literally
    nor built: the construction raises [GraphError]. *)
Lemma dict_param_unbound_cex :
  exec_tree py_ret_B new_empty_mfr 20 (TypeSpecs.CITS (TSClass CDict) (VDict [(VStr "k", VDict [])]))
    None [] = Some (inl GraphError, None, []).
Proof. vm_compute; reflexivity. Qed.

(** *** [Manufacturer.make] on realized inputs *)




(** ** Further properties: [afb/core/factory.py] *)

Lemma od_get_kw_set d k v k' :
  od_get (kw_set d k v) k' = if String.eqb k k' then Some v else od_get d k'.
Proof.
  induction d as [|[k0 v0] d IH]; cbn [kw_set od_get].
  - destruct (String.eqb k k'); reflexivity.
  - destruct (String.eqb k0 k) eqn:E0.
    + apply String.eqb_eq in E0; subst k0; cbn [od_get].
      destruct (String.eqb k k'); reflexivity.
    + cbn [od_get]; rewrite IH.
      destruct (String.eqb k0 k') eqn:E1, (String.eqb k k') eqn:E2; try reflexivity.
      apply String.eqb_eq in E1, E2; subst; rewrite String.eqb_refl in E0; discriminate.
Qed.

Lemma str_mem_filter_ext (l ks : list string) k :
  ~ In k l ->
  List.filter (fun x => negb (str_mem x (ks ++ [k]))) l = List.filter (fun x => negb (str_mem x ks)) l.
Proof.
  intros Hk; apply filter_ext_in; intros x Hx.
  rewrite str_mem_app; unfold str_mem at 2; cbn [existsb].
  destruct (String.eqb x k) eqn:E; [|rewrite !orb_false_r; reflexivity].
  apply String.eqb_eq in E; subst x; contradiction.
Qed.

(** X1: [d.update(kw)] for a dict [kw]: a key of [kw] maps to its value in
    [kw], any other key keeps its value in [d]; the keys of [d] keep their
    order and the new keys of [kw] follow in [kw]'s order. *)
Theorem kw_update_lookup_order (d kw : kwargs) :
  List.NoDup (map fst kw) ->
  (forall k, od_get (kw_update d kw) k =
               match od_get kw k with Some v => Some v | None => od_get d k end) /\
  map fst (kw_update d kw) =
    map fst d ++ List.filter (fun k => negb (str_mem k (map fst d))) (map fst kw).
Proof.
  unfold kw_update; revert d; induction kw as [|[k0 v0] kw IH]; intros d Hd.
  - split; [intros k; reflexivity | cbn; rewrite app_nil_r; reflexivity].
  - cbn [map fst] in Hd; inversion Hd as [|? ? Hk0 Hnd]; subst.
    destruct (IH (kw_set d k0 v0) Hnd) as [IH1 IH2]; cbn [fold_left fst snd]; split.
    + intros k; rewrite IH1; cbn [od_get].
      destruct (String.eqb k0 k) eqn:E.
      * apply String.eqb_eq in E; subst k0.
        assert (Hn : od_get kw k = None) by (apply od_get_None; exact Hk0).
        rewrite Hn, od_get_kw_set, String.eqb_refl; reflexivity.
      * destruct (od_get kw k); [reflexivity|]; rewrite od_get_kw_set, E; reflexivity.
    + rewrite IH2, kw_set_keys; cbn [map fst List.filter].
      destruct (str_mem k0 (map fst d)) eqn:E; cbn [negb].
      * reflexivity.
      * rewrite str_mem_filter_ext by exact Hk0.
        rewrite <- app_assoc; reflexivity.
Qed.

Lemma kw_update_lookup_order_witness :
  List.NoDup (map fst [("b"%string, VInt 3); ("c"%string, VInt 4)]) /\
  map fst (kw_update [("a"%string, VInt 1); ("b"%string, VInt 2)]
                     [("b"%string, VInt 3); ("c"%string, VInt 4)]) = ["a"; "b"; "c"]%string.
Proof.
  assert (Hd : List.NoDup (map fst [("b"%string, VInt 3); ("c"%string, VInt 4)])).
  { cbn; constructor; [intros [H|[]]; discriminate | constructor; [intros []|constructor]]. }
  split; [exact Hd|].
  rewrite (proj2 (kw_update_lookup_order [("a"%string, VInt 1); ("b"%string, VInt 2)] _ Hd)).
  reflexivity.
Defined.

Lemma merge_inputs_sound f kw r :
  merge_inputs f kw = inr r ->
  r = kw_update (fct_defaults f) kw /\
  (forall k, In k (map fst r) -> In k (sig_names (fct_sig f))) /\
  (forall q, In q (sig_required (fct_sig f)) -> In q (map fst r)).
Proof.
  intros H; unfold merge_inputs in H.
  destruct (List.filter (fun k => negb (str_mem k (sig_names (fct_sig f))))
              (map fst (kw_update (fct_defaults f) kw))) as [|x xs] eqn:E1;
    cbn [null negb] in H; [|discriminate].
  destruct (List.filter (fun k => negb (str_mem k (map fst (kw_update (fct_defaults f) kw))))
              (sig_required (fct_sig f))) as [|y ys] eqn:E2;
    cbn [null negb] in H; [|discriminate].
  injection H as <-; split; [reflexivity|split].
  - intros k Hk; apply str_mem_In; destruct (str_mem k (sig_names (fct_sig f))) eqn:Em;
      [reflexivity|].
    assert (Hin : In k (List.filter (fun k => negb (str_mem k (sig_names (fct_sig f))))
                        (map fst (kw_update (fct_defaults f) kw))))
      by (apply filter_In; rewrite Em; split; [exact Hk | reflexivity]).
    rewrite E1 in Hin; destruct Hin.
  - intros q Hq; apply str_mem_In;
      destruct (str_mem q (map fst (kw_update (fct_defaults f) kw))) eqn:Em; [reflexivity|].
    assert (Hin : In q (List.filter (fun k => negb (str_mem k (map fst (kw_update (fct_defaults f) kw))))
                        (sig_required (fct_sig f))))
      by (apply filter_In; rewrite Em; split; [exact Hq | reflexivity]).
    rewrite E2 in Hin; destruct Hin.
Qed.

(** X2: [Factory.merge_inputs( **kw)] returns a value only when every
    merged name (defaults updated by [kw]) is a parameter of the signature
    and every required parameter is among them; the value is then the
    merged dict. *)
Theorem merge_inputs_iff f kw r :
  merge_inputs f kw = inr r <->
  r = kw_update (fct_defaults f) kw /\
  (forall k, In k (map fst r) -> In k (sig_names (fct_sig f))) /\
  (forall q, In q (sig_required (fct_sig f)) -> In q (map fst r)).
Proof.
  split; [apply merge_inputs_sound|].
  intros [-> [Hn Hq]]; apply merge_inputs_ok; assumption.
Qed.

Lemma input_items_total sig (merged : kwargs) :
  (forall k, In k (map fst merged) -> In k (sig_names sig)) ->
  exists chunks,
    Forall2 (fun kv ch => exists ps, od_get (sig_specs sig) kv.1 = Some ps /\
               ch = [TypeSpecs.CINone (VStr kv.1); TypeSpecs.CITS (ps_type ps) kv.2]) merged chunks /\
    input_items sig merged = (concat chunks, None).
Proof.
  induction merged as [|[k v] merged IH]; intros Hk.
  - exists []; split; [constructor | reflexivity].
  - destruct IH as [chunks [HF E]]; [intros k' Hk'; apply Hk; right; exact Hk'|].
    cbn [input_items]; destruct (od_get (sig_specs sig) k) as [ps|] eqn:Eg.
    + rewrite E; exists ([TypeSpecs.CINone (VStr k); TypeSpecs.CITS (ps_type ps) v] :: chunks).
      split; [constructor; [exists ps; split; [exact Eg | reflexivity] | exact HF] | reflexivity].
    + exfalso; apply od_get_None in Eg; apply Eg, Hk; left; reflexivity.
Qed.

(** X3: when [merge_inputs] accepts the inputs [kw] (a dict with string
    keys), the generator [Factory.parse_inputs(kw)] raises nothing: for
    each merged argument in order it yields [None] with the argument's
    name, then the type spec of its parameter with its value. *)
Theorem parse_inputs_items f kw merged :
  merge_inputs f kw = inr merged ->
  exists chunks,
    Forall2 (fun kv ch => exists ps, od_get (sig_specs (fct_sig f)) kv.1 = Some ps /\
               ch = [TypeSpecs.CINone (VStr kv.1); TypeSpecs.CITS (ps_type ps) kv.2]) merged chunks /\
    parse_inputs f (kwargs_val kw) = Algorithms.Gen (concat chunks) None.
Proof.
  intros H; destruct (merge_inputs_sound _ _ _ H) as [_ [Hn _]].
  destruct (input_items_total (fct_sig f) merged Hn) as [chunks [HF E]].
  exists chunks; split; [exact HF|].
  unfold parse_inputs, kwargs_val; rewrite kwargs_of_items_val.
  unfold gen_of_merged; rewrite H, E; reflexivity.
Qed.

Lemma parse_inputs_items_witness :
  merge_inputs fct_B_a kw_a1 = inr kw_a1 /\
  parse_inputs fct_B_a (kwargs_val kw_a1) =
    Algorithms.Gen [TypeSpecs.CINone (VStr "a"); TypeSpecs.CITS (TSClass CInt) (VInt 1)] None.
Proof.
  assert (H : merge_inputs fct_B_a kw_a1 = inr kw_a1) by reflexivity.
  split; [exact H|].
  destruct (parse_inputs_items fct_B_a kw_a1 kw_a1 H) as [chunks [HF E]].
  rewrite E; inversion HF as [|kv ch ? chs [ps [Hps ->]] HF']; subst.
  inversion HF'; subst; cbn in Hps; injection Hps as <-; reflexivity.
Defined.

(** X4: [Factory.call_as_fuse_fn] on the flattened items [k1, v1, k2, v2,
    ...] of a dict with string keys makes the one call [factory(k1=v1,
    k2=v2, ...)]: same result, same calls. *)
Theorem call_as_fuse_fn_flat py_call c fn (merged : kwargs) lg :
  List.NoDup (map fst merged) ->
  call_as_fuse_fn py_call c fn (flat_map (fun kv => [VStr kv.1; kv.2]) merged) lg =
    factory_call py_call c fn merged lg.
Proof. exact (call_fuse_flat py_call c fn merged lg). Qed.

Lemma call_as_fuse_fn_flat_witness :
  List.NoDup (map fst kw_a1) /\
  call_as_fuse_fn py_ret_B cls_B 7 [VStr "a"; VInt 1] [] =
    (inr (VInst cls_B 7), [(7, kw_a1)]).
Proof.
  assert (Hd : List.NoDup (map fst kw_a1)) by (constructor; [intros [] | constructor]).
  split; [exact Hd|].
  exact (call_as_fuse_fn_flat py_ret_B cls_B 7 kw_a1 [] Hd).
Defined.

(** ** Further properties: [TypeSpec.parse] *)

Local Abbreviation peval := (Algorithms.eval RawSpec.parse_proc).
Local Abbreviation peval_gen := (Algorithms.eval_gen RawSpec.parse_proc).

Lemma typespec_parse_node fuel spec :
  (forall ts, spec <> RawSpec.RTS ts) -> (forall v, spec <> RawSpec.ROther v) ->
  RawSpec.typespec_parse fuel spec =
    option_map fst (Algorithms.postorder_dfs RawSpec.parse_proc (TSTuple []) fuel spec tt).
Proof.
  intros H1 H2; destruct spec; try reflexivity; [exfalso; eapply H1 | exfalso; eapply H2]; reflexivity.
Qed.

Lemma to_raw_node fuel ts :
  RawSpec.typespec_parse fuel (RawSpec.to_raw ts) =
    option_map fst (Algorithms.postorder_dfs RawSpec.parse_proc (TSTuple []) fuel (RawSpec.to_raw ts) tt).
Proof. apply typespec_parse_node; intros x; destruct ts; discriminate. Qed.

Lemma parse_eval_ok ts :
  RawSpec.tuples_nonempty ts = true -> peval (RawSpec.to_raw ts) tt (inr ts) tt.
Proof.
  induction ts as [c|t IH|tk tv IHk IHv|l IH] using typespec_ind'; intros Hw.
  - apply (AlgorithmsFacts.ev_node_eq RawSpec.parse_proc (RawSpec.RType c) tt RawSpec.fuse_class
             (Algorithms.Gen [RawSpec.RTS (TSClass c)] None) tt [TSClass c] tt _ tt eq_refl);
      [|reflexivity].
    eapply Algorithms.eg_cons; [apply Algorithms.ev_item; reflexivity | constructor].
  - apply (AlgorithmsFacts.ev_node_eq RawSpec.parse_proc (RawSpec.RList [RawSpec.to_raw t]) tt
             RawSpec.fuse_list (Algorithms.Gen [RawSpec.to_raw t] None) tt [t] tt _ tt eq_refl);
      [|reflexivity].
    eapply Algorithms.eg_cons; [apply IH, Hw | constructor].
  - cbn [RawSpec.tuples_nonempty] in Hw; apply andb_true_iff in Hw as [Hk Hv].
    apply (AlgorithmsFacts.ev_node_eq RawSpec.parse_proc
             (RawSpec.RDict [(RawSpec.to_raw tk, RawSpec.to_raw tv)]) tt RawSpec.fuse_dict
             (Algorithms.Gen [RawSpec.to_raw tk; RawSpec.to_raw tv] None) tt [tk; tv] tt _ tt eq_refl);
      [|reflexivity].
    eapply Algorithms.eg_cons; [apply IHk, Hk|].
    eapply Algorithms.eg_cons; [apply IHv, Hv | constructor].
  - cbn [RawSpec.tuples_nonempty] in Hw; apply andb_true_iff in Hw as [Hn Hl].
    apply (AlgorithmsFacts.ev_node_eq RawSpec.parse_proc (RawSpec.RTuple (map RawSpec.to_raw l)) tt
             RawSpec.fuse_tuple (Algorithms.Gen (map RawSpec.to_raw l) None) tt l tt _ tt eq_refl);
      [| destruct l; [discriminate | reflexivity]].
    cbn [Algorithms.gen_items Algorithms.gen_raise]; clear Hn.
    induction IH as [|t l Ht _ IHl]; [constructor|].
    cbn [forallb] in Hl; apply andb_true_iff in Hl as [H1 H2].
    eapply Algorithms.eg_cons; [apply Ht, H1 | apply IHl, H2].
Qed.

Lemma parse_eval_bad ts :
  RawSpec.tuples_nonempty ts = false -> peval (RawSpec.to_raw ts) tt (inl AssertionError) tt.
Proof.
  induction ts as [c|t IH|tk tv IHk IHv|l IH] using typespec_ind'; intros Hw.
  - discriminate.
  - apply (Algorithms.ev_node_raise RawSpec.parse_proc (RawSpec.RList [RawSpec.to_raw t]) tt
             RawSpec.fuse_list (Algorithms.Gen [RawSpec.to_raw t] None) tt AssertionError tt eq_refl).
    apply Algorithms.eg_cons_raise, IH, Hw.
  - apply (Algorithms.ev_node_raise RawSpec.parse_proc
             (RawSpec.RDict [(RawSpec.to_raw tk, RawSpec.to_raw tv)]) tt RawSpec.fuse_dict
             (Algorithms.Gen [RawSpec.to_raw tk; RawSpec.to_raw tv] None) tt AssertionError tt eq_refl).
    cbn [RawSpec.tuples_nonempty] in Hw; cbn [Algorithms.gen_items Algorithms.gen_raise].
    destruct (RawSpec.tuples_nonempty tk) eqn:Hk.
    + eapply Algorithms.eg_cons_raise_later; [apply parse_eval_ok, Hk|].
      apply Algorithms.eg_cons_raise, IHv, Hw.
    + apply Algorithms.eg_cons_raise, IHk; reflexivity.
  - assert (Hg : forallb RawSpec.tuples_nonempty l = false ->
                 peval_gen (map RawSpec.to_raw l) None tt (inl AssertionError) tt).
    { clear Hw; induction IH as [|t l Ht _ IHl]; intros Hf; [discriminate|].
      cbn [forallb] in Hf; cbn [map]; destruct (RawSpec.tuples_nonempty t) eqn:E.
      - eapply Algorithms.eg_cons_raise_later; [apply parse_eval_ok, E | apply IHl, Hf].
      - apply Algorithms.eg_cons_raise, Ht; reflexivity. }
    cbn [RawSpec.tuples_nonempty] in Hw; destruct l as [|t0 l0].
    + apply (AlgorithmsFacts.ev_node_eq RawSpec.parse_proc (RawSpec.RTuple []) tt
               RawSpec.fuse_tuple (Algorithms.Gen [] None) tt [] tt _ tt eq_refl);
        [constructor | reflexivity].
    + apply (Algorithms.ev_node_raise RawSpec.parse_proc (RawSpec.RTuple (map RawSpec.to_raw (t0 :: l0)))
               tt RawSpec.fuse_tuple (Algorithms.Gen (map RawSpec.to_raw (t0 :: l0)) None) tt
               AssertionError tt eq_refl).
      apply Hg, Hw.
Qed.

(** X5: [TypeSpec.parse] on the raw form of a type spec (a class, [[TS]],
    [{TS: TS}], [(TS, ...)]) with no empty tuple in it returns that type
    spec, and can return nothing else. *)
Theorem typespec_parse_to_raw ts :
  RawSpec.tuples_nonempty ts = true ->
  (exists k, forall n, RawSpec.typespec_parse (k + n) (RawSpec.to_raw ts) = Some (inr ts)) /\
  (forall fuel r, RawSpec.typespec_parse fuel (RawSpec.to_raw ts) = Some r -> r = inr ts).
Proof.
  intros Hw; destruct (AlgorithmsFacts.dfs_refines _ (TSTuple []) _ _ _ _ (parse_eval_ok ts Hw))
    as [[k Hk] Hu]; split.
  - exists k; intros n; rewrite to_raw_node, Hk; reflexivity.
  - intros fuel r; rewrite to_raw_node.
    destruct (Algorithms.postorder_dfs _ _ fuel _ _) as [out|] eqn:E; [|discriminate].
    rewrite (Hu _ _ E); intros [= <-]; reflexivity.
Qed.

Lemma typespec_parse_to_raw_witness :
  RawSpec.tuples_nonempty (TSDict (TSClass CStr) (TSTuple [TSClass CInt; TSList (TSClass CBool)])) = true /\
  exists k, forall n,
    RawSpec.typespec_parse (k + n)
      (RawSpec.RDict [(RawSpec.RType CStr,
                       RawSpec.RTuple [RawSpec.RType CInt; RawSpec.RList [RawSpec.RType CBool]])]) =
    Some (inr (TSDict (TSClass CStr) (TSTuple [TSClass CInt; TSList (TSClass CBool)]))).
Proof.
  split; [reflexivity|].
  exact (proj1 (typespec_parse_to_raw
                  (TSDict (TSClass CStr) (TSTuple [TSClass CInt; TSList (TSClass CBool)])) eq_refl)).
Defined.

(** X6: a type spec with an empty tuple anywhere in it cannot be parsed
    from its raw form: [TypeSpec.parse] raises [AssertionError] (the
    assertion [len(specs)] of [_TupleTypeSpec.fuse_subspecs]) and can
    return nothing else. *)
Theorem typespec_parse_empty_tuple ts :
  RawSpec.tuples_nonempty ts = false ->
  (exists k, forall n, RawSpec.typespec_parse (k + n) (RawSpec.to_raw ts) = Some (inl AssertionError)) /\
  (forall fuel r, RawSpec.typespec_parse fuel (RawSpec.to_raw ts) = Some r -> r = inl AssertionError).
Proof.
  intros Hw; destruct (AlgorithmsFacts.dfs_refines _ (TSTuple []) _ _ _ _ (parse_eval_bad ts Hw))
    as [[k Hk] Hu]; split.
  - exists k; intros n; rewrite to_raw_node, Hk; reflexivity.
  - intros fuel r; rewrite to_raw_node.
    destruct (Algorithms.postorder_dfs _ _ fuel _ _) as [out|] eqn:E; [|discriminate].
    rewrite (Hu _ _ E); intros [= <-]; reflexivity.
Qed.

Lemma typespec_parse_empty_tuple_witness :
  RawSpec.tuples_nonempty (TSList (TSDict (TSClass CStr) (TSTuple []))) = false /\
  exists k, forall n,
    RawSpec.typespec_parse (k + n)
      (RawSpec.RList [RawSpec.RDict [(RawSpec.RType CStr, RawSpec.RTuple [])]]) =
    Some (inl AssertionError).
Proof.
  split; [reflexivity|].
  exact (proj1 (typespec_parse_empty_tuple (TSList (TSDict (TSClass CStr) (TSTuple []))) eq_refl)).
Defined.

(** X7: a list spec is parsed from its first entry only, the other
    entries being ignored; an empty list spec raises [IndexError]
    ([raw_spec[0]] in [_ListTypeSpec.iter_raw]). *)
Theorem typespec_parse_list_first a rest :
  (forall fuel, RawSpec.typespec_parse fuel (RawSpec.RList (a :: rest)) =
                RawSpec.typespec_parse fuel (RawSpec.RList [a])) /\
  (forall n, RawSpec.typespec_parse (2 + n) (RawSpec.RList []) = Some (inl IndexError)).
Proof. split; intros [|n]; reflexivity. Qed.

(** X8: a dict spec raises [AssertionError] unless it has exactly one
    entry ([_DictTypeSpec.iter_raw]). *)
Theorem typespec_parse_dict_arity kvs :
  (forall k v, kvs <> [(k, v)]) ->
  forall n, RawSpec.typespec_parse (2 + n) (RawSpec.RDict kvs) = Some (inl AssertionError).
Proof.
  intros H n; destruct kvs as [|[k v] [|kv kvs]]; try reflexivity.
  exfalso; exact (H k v eq_refl).
Qed.

Lemma typespec_parse_dict_arity_witness :
  (forall k v, [(RawSpec.RType CStr, RawSpec.RType CInt); (RawSpec.RType CInt, RawSpec.RType CStr)]
                 <> [(k, v)]) /\
  RawSpec.typespec_parse 2
    (RawSpec.RDict [(RawSpec.RType CStr, RawSpec.RType CInt); (RawSpec.RType CInt, RawSpec.RType CStr)]) =
  Some (inl AssertionError).
Proof.
  assert (H : forall k v, [(RawSpec.RType CStr, RawSpec.RType CInt); (RawSpec.RType CInt, RawSpec.RType CStr)]
                          <> [(k, v)]) by (intros k v; discriminate).
  split; [exact H | exact (typespec_parse_dict_arity _ H 0)].
Defined.

(** X9: a value that is neither a class, a list, a dict, a tuple nor a
    [TypeSpec] is refused with [TypeError] at the top of a spec, but with
    [KeyError] (the lookup [_TS_MAP[type(item)]]) as an entry of a tuple
    spec, after entries that parse. *)
Theorem typespec_parse_not_spec v pre post :
  Forall (fun t => RawSpec.tuples_nonempty t = true) pre ->
  (forall fuel, exists msg, RawSpec.typespec_parse fuel (RawSpec.ROther v) = Some (inl (TypeError msg))) /\
  (exists k, forall n, exists msg,
     RawSpec.typespec_parse (k + n)
       (RawSpec.RTuple (map RawSpec.to_raw pre ++ RawSpec.ROther v :: post)) =
     Some (inl (KeyError msg))).
Proof.
  intros Hpre; split; [intros fuel; eexists; reflexivity|].
  assert (He : peval (RawSpec.RTuple (map RawSpec.to_raw pre ++ RawSpec.ROther v :: post)) tt
                 (inl (KeyError "type not in _TS_MAP")) tt).
  { apply (Algorithms.ev_node_raise RawSpec.parse_proc
             (RawSpec.RTuple (map RawSpec.to_raw pre ++ RawSpec.ROther v :: post)) tt RawSpec.fuse_tuple
             (Algorithms.Gen (map RawSpec.to_raw pre ++ RawSpec.ROther v :: post) None) tt
             (KeyError "type not in _TS_MAP") tt eq_refl).
    cbn [Algorithms.gen_items Algorithms.gen_raise].
    induction Hpre as [|t pre Ht _ IH]; cbn [map app].
    - apply Algorithms.eg_cons_raise, Algorithms.ev_raise; reflexivity.
    - eapply Algorithms.eg_cons_raise_later; [apply parse_eval_ok, Ht | exact IH]. }
  destruct (AlgorithmsFacts.dfs_refines _ (TSTuple []) _ _ _ _ He) as [[k Hk] _].
  exists k; intros n; eexists.
  rewrite typespec_parse_node by discriminate; rewrite Hk; reflexivity.
Qed.

Lemma typespec_parse_not_spec_witness :
  Forall (fun t => RawSpec.tuples_nonempty t = true) [TSClass CInt] /\
  exists k, forall n, exists msg,
    RawSpec.typespec_parse (k + n) (RawSpec.RTuple [RawSpec.RType CInt; RawSpec.ROther (VInt 3)]) =
    Some (inl (KeyError msg)).
Proof.
  assert (H : Forall (fun t => RawSpec.tuples_nonempty t = true) [TSClass CInt])
    by (constructor; [reflexivity | constructor]).
  split; [exact H | exact (proj2 (typespec_parse_not_spec (VInt 3) [TSClass CInt] [] H))].
Defined.

(** ** Further properties: [Manufacturer] and [Broker] *)

Lemma bk_get_app bk1 bk2 c :
  bk_get (bk1 ++ bk2) c = match bk_get bk1 c with Some m => Some m | None => bk_get bk2 c end.
Proof.
  induction bk1 as [|[c' m] bk1 IH]; [reflexivity|]; cbn [app bk_get].
  destruct (cls_eqb c' c); [reflexivity | exact IH].
Qed.

Lemma bk_get_single c m d : bk_get [(c, m)] d = if cls_eqb c d then Some m else None.
Proof. reflexivity. Qed.

Lemma cls_eqb_iff c d : cls_eqb c d = true <-> c = d.
Proof. unfold cls_eqb; apply bool_decide_eq_true. Qed.

Lemma cls_eqb_neq c d : cls_eqb c d = false <-> c <> d.
Proof. unfold cls_eqb; apply bool_decide_eq_false. Qed.

Lemma bk_get_None bk c : bk_get bk c = None <-> ~ In c (map fst bk).
Proof.
  induction bk as [|[c' m] bk IH]; cbn [bk_get map fst In]; [split; [intros _ []|reflexivity]|].
  destruct (cls_eqb c' c) eqn:E.
  - apply cls_eqb_iff in E; subst; split; [discriminate|]; intros H; exfalso; apply H; left; reflexivity.
  - apply cls_eqb_neq in E; rewrite IH; split.
    + intros H [H1|H1]; [exact (E H1) | exact (H H1)].
    + intros H H1; apply H; right; exact H1.
Qed.

Lemma bk_remove_cons c' m bk c :
  bk_remove ((c', m) :: bk) c = if cls_eqb c' c then bk_remove bk c else (c', m) :: bk_remove bk c.
Proof. unfold bk_remove; cbn [List.filter fst]; destruct (cls_eqb c' c); reflexivity. Qed.

Lemma bk_get_remove bk c0 c :
  bk_get (bk_remove bk c0) c = if cls_eqb c0 c then None else bk_get bk c.
Proof.
  induction bk as [|[c' m] bk IH]; [destruct (cls_eqb c0 c); reflexivity|].
  rewrite bk_remove_cons; destruct (cls_eqb c' c0) eqn:E1.
  - apply cls_eqb_iff in E1; subst c'; rewrite IH; cbn [bk_get].
    destruct (cls_eqb c0 c); reflexivity.
  - apply cls_eqb_neq in E1; cbn [bk_get]; rewrite IH.
    destruct (cls_eqb c' c) eqn:E2, (cls_eqb c0 c) eqn:E3; try reflexivity.
    apply cls_eqb_iff in E2, E3; subst; contradiction.
Qed.

Lemma NoDup_snoc {X : Type} (l : list X) x : List.NoDup l -> ~ In x l -> List.NoDup (l ++ [x]).
Proof.
  intros H1 H2; apply (Permutation_NoDup (Permutation_cons_append l x)); constructor; assumption.
Qed.

Lemma bk_remove_nodup bk c :
  List.NoDup (map fst bk) -> List.NoDup (map fst (bk_remove bk c)) /\ ~ In c (map fst (bk_remove bk c)).
Proof.
  induction bk as [|[c' m] bk IH]; intros Hd; [split; [constructor | intros []]|].
  cbn [map fst] in Hd; inversion Hd as [|? ? Hc' Hd']; subst.
  destruct (IH Hd') as [IH1 IH2]; rewrite bk_remove_cons; destruct (cls_eqb c' c) eqn:E;
    [split; assumption|].
  apply cls_eqb_neq in E; cbn [map fst]; split.
  - constructor; [|exact IH1].
    intros Hin; apply Hc'; apply in_map_iff in Hin as [[d m'] [Hd1 Hin]]; cbn [fst] in Hd1; subst d.
    unfold bk_remove in Hin; apply filter_In in Hin as [Hin _].
    apply in_map_iff; exists (c', m'); split; [reflexivity | exact Hin].
  - intros [H|H]; [exact (E H) | exact (IH2 H)].
Qed.

Lemma first_error_None {X : Type} (f : X -> option exc) l :
  first_error f l = None <-> forall x, In x l -> f x = None.
Proof.
  induction l as [|x l IH]; cbn [first_error In]; [split; [intros _ _ []|reflexivity]|].
  destruct (f x) eqn:E; split.
  - discriminate.
  - intros H; rewrite (H x (or_introl eq_refl)) in E; discriminate.
  - intros H y [<-|Hy]; [exact E | apply IH; assumption].
  - intros H; apply IH; intros y Hy; apply H; right; exact Hy.
Qed.

Lemma first_seg_empty s : first_seg s = EmptyString <-> s = EmptyString \/ exists r, s = String "/" r.
Proof.
  destruct s as [|ch r]; cbn [first_seg]; [split; [left; reflexivity | reflexivity]|].
  destruct (Ascii.eqb ch "/") eqn:E; split.
  - intros _; right; apply Ascii.eqb_eq in E; subst; exists r; reflexivity.
  - reflexivity.
  - discriminate.
  - intros [H|[r' H]]; [discriminate|]; injection H as -> _; discriminate.
Qed.

(** X10: [Manufacturer.default = k] is refused with [KeyError] exactly
    when [k in self] is false; once set, [make] without a key is [make]
    with the key [k] on the manufacturer as it was. *)
Theorem set_default_make py_call new_mfr m k :
  (set_default m (Some k) = inl (KeyError "Factory not found") <-> contains m k = false) /\
  (forall m', set_default m (Some k) = inr m' ->
     m_default m' = Some k /\
     forall fuel bko inputs lg,
       make py_call new_mfr fuel m' bko None inputs lg =
       make py_call new_mfr fuel m bko (Some (VStr k)) inputs lg).
Proof.
  unfold set_default; destruct (contains m k); split.
  - split; discriminate.
  - intros m' [= <-]; split; [reflexivity|]; intros; destruct m; reflexivity.
  - split; reflexivity.
  - discriminate.
Qed.

(** X11: a reserved key (under ["afb"]) held only by the user factories is
    accepted as default ([__contains__] looks at both registries), but
    [make] without a key then raises [KeyError] ([get] looks only at the
    builtin factories for a reserved key). *)
Theorem set_default_reserved_user_key py_call new_mfr m k f :
  is_reserved k = true -> m_user_fcts m !! k = Some f -> m_builtin_fcts m !! k = None ->
  exists m', set_default m (Some k) = inr m' /\
    forall fuel bko inputs lg,
      make py_call new_mfr fuel m' bko None inputs lg = Some (inl (KeyError "Factory not found"), bko, lg).
Proof.
  intros Hr Hu Hb.
  assert (Hc : contains m k = true)
    by (unfold contains; rewrite Hu; rewrite (bool_decide_eq_true_2 (is_Some (Some f))) by (eexists; reflexivity);
        apply orb_true_r).
  unfold set_default; rewrite Hc; eexists; split; [reflexivity|].
  intros; unfold make; cbn [option_map m_default get_py]; unfold get; cbn [m_builtin_fcts].
  rewrite Hr, Hb; reflexivity.
Qed.

Lemma set_default_reserved_user_key_witness :
  is_reserved "afb/x" = true /\
  exists m', set_default (mfr_of ∅ {[ "afb/x" := fct_plain 1 ]}) (Some "afb/x"%string) = inr m' /\
    make py_ret_B new_empty_mfr 10 m' None None (VDict []) [] =
      Some (inl (KeyError "Factory not found"), None, []).
Proof.
  split; [reflexivity|].
  assert (Hu : m_user_fcts (mfr_of ∅ {[ "afb/x" := fct_plain 1 ]}) !! "afb/x"%string = Some (fct_plain 1))
    by reflexivity.
  destruct (set_default_reserved_user_key py_ret_B new_empty_mfr (mfr_of ∅ {[ "afb/x" := fct_plain 1 ]})
              "afb/x" (fct_plain 1) eq_refl Hu eq_refl) as [m' [H1 H2]].
  exists m'; split; [exact H1 | apply H2].
Defined.

(** X12: a key is reserved exactly when it is ["afb"] or starts with
    ["afb/"]. *)
Theorem is_reserved_iff k :
  is_reserved k = true <-> k = "afb"%string \/ exists r, k = String.append "afb/" r.
Proof.
  unfold is_reserved; rewrite String.eqb_eq; split.
  - destruct k as [|a k]; cbn [first_seg]; [discriminate|].
    destruct (Ascii.eqb a "/"); [discriminate|]; intros H; injection H as -> H.
    destruct k as [|b k]; cbn [first_seg] in H; [discriminate|].
    destruct (Ascii.eqb b "/"); [discriminate|]; injection H as -> H.
    destruct k as [|c k]; cbn [first_seg] in H; [discriminate|].
    destruct (Ascii.eqb c "/"); [discriminate|]; injection H as -> H.
    apply first_seg_empty in H as [->|[r ->]]; [left | right; exists r]; reflexivity.
  - intros [->|[r ->]]; reflexivity.
Qed.

Lemma bk_get_snoc_self bk c m : bk_get bk c = None -> bk_get (bk ++ [(c, m)]) c = Some m.
Proof.
  intros H; rewrite bk_get_app, H, bk_get_single.
  assert (E : cls_eqb c c = true) by (apply cls_eqb_iff; reflexivity); rewrite E; reflexivity.
Qed.

Lemma bk_get_snoc_other bk c m d : d <> c -> bk_get (bk ++ [(c, m)]) d = bk_get bk d.
Proof.
  intros H; rewrite bk_get_app; destruct (bk_get bk d); [reflexivity|].
  rewrite bk_get_single.
  assert (E : cls_eqb c d = false) by (apply cls_eqb_neq; congruence); rewrite E; reflexivity.
Qed.

(** The [mfr._bind(self)] step of [_register] on the registrations [b]
    that no longer hold the class. *)
Lemma bind_and_set_spec bk b m bs :
  bk_get b (m_cls m) = None ->
  (forall d, d <> m_cls m -> bk_get b d = bk_get bk d) ->
  (List.NoDup (map fst bk) -> List.NoDup (map fst b)) ->
  match (match bind bs with inl e => (inl e, b) | inr _ => (inr tt, b ++ [(m_cls m, m)]) end)
  with
  | (r, bk') =>
      (r = inr tt <-> bs = Unbound) /\
      (r = inr tt ->
       bk_get bk' (m_cls m) = Some m /\
       (forall d, d <> m_cls m -> bk_get bk' d = bk_get bk d) /\
       (List.NoDup (map fst bk) -> List.NoDup (map fst bk'))) /\
      (bs <> Unbound ->
       exists msg, r = inl (TypeError msg) /\ bk' = b)
  end.
Proof.
  intros H1 H2 H3; destruct bs; cbn [bind].
  - split; [split; reflexivity|]; split; [|intros H; exfalso; exact (H eq_refl)].
    intros _; split; [exact (bk_get_snoc_self _ _ _ H1)|]; split.
    + intros d Hd; rewrite (bk_get_snoc_other _ _ _ _ Hd); exact (H2 d Hd).
    + intros Hd; rewrite map_app; apply NoDup_snoc; [exact (H3 Hd)|]; apply bk_get_None, H1.
  - split; [split; discriminate|]; split; [discriminate|]; intros _; eexists; split; reflexivity.
  - split; [split; discriminate|]; split; [discriminate|]; intros _; eexists; split; reflexivity.
Qed.

(** X13: [Broker._register(mfr, override)] succeeds exactly when the class
    of [mfr] is absent or [override] holds, and [mfr] has no live broker
    and a callable [_bind]; it then maps the class to [mfr], keeps the
    other classes' manufacturers and still holds one manufacturer per
    class. A class present without [override] raises [KeyConflictError]
    and changes nothing. Otherwise a manufacturer bound to a live broker,
    or one whose [_bind] an earlier override cleared, raises [TypeError]:
    the broker then holds no manufacturer for the class (with [override],
    the old one has been popped) and keeps the others. *)
Theorem bk_register_spec bk m bs override :
  match bk_register bk m bs override with
  | (r, bk') =>
      (r = inr tt <-> (bk_get bk (m_cls m) = None \/ override = true) /\ bs = Unbound) /\
      (r = inr tt ->
       bk_get bk' (m_cls m) = Some m /\
       (forall c, c <> m_cls m -> bk_get bk' c = bk_get bk c) /\
       (List.NoDup (map fst bk) -> List.NoDup (map fst bk'))) /\
      (bk_get bk (m_cls m) <> None -> override = false ->
       r = inl (KeyConflictError []) /\ bk' = bk) /\
      ((bk_get bk (m_cls m) = None \/ override = true) -> bs <> Unbound ->
       exists msg, r = inl (TypeError msg) /\ bk_get bk' (m_cls m) = None /\
       (forall c, c <> m_cls m -> bk_get bk' c = bk_get bk c))
  end.
Proof.
  assert (Hself : bk_get (bk_remove bk (m_cls m)) (m_cls m) = None).
  { rewrite bk_get_remove.
    assert (E : cls_eqb (m_cls m) (m_cls m) = true) by (apply cls_eqb_iff; reflexivity).
    rewrite E; reflexivity. }
  assert (Hoth : forall d, d <> m_cls m -> bk_get (bk_remove bk (m_cls m)) d = bk_get bk d).
  { intros d Hd; rewrite bk_get_remove.
    assert (E : cls_eqb (m_cls m) d = false) by (apply cls_eqb_neq; congruence).
    rewrite E; reflexivity. }
  assert (Hnd : List.NoDup (map fst bk) -> List.NoDup (map fst (bk_remove bk (m_cls m))))
    by (intros Hd; exact (proj1 (bk_remove_nodup bk (m_cls m) Hd))).
  unfold bk_register; cbv zeta.
  destruct (bk_get bk (m_cls m)) as [m0|] eqn:Eg; [destruct override|].
  - pose proof (bind_and_set_spec bk _ m bs Hself Hoth Hnd) as Hb.
    destruct (match bind bs with inl e => (inl e, bk_remove bk (m_cls m))
                                 | inr _ => (inr tt, bk_remove bk (m_cls m) ++ [(m_cls m, m)]) end)
      as [r bk'] eqn:Er.
    destruct Hb as [Hb1 [Hb2 Hb3]].
    split; [rewrite Hb1; split; [intros ->; split; [right|]; reflexivity | intros [_ ->]; reflexivity]|].
    split; [exact Hb2|]; split; [intros _ H; discriminate H|].
    intros _ Hu; destruct (Hb3 Hu) as [msg [-> ->]]; exists msg; split; [reflexivity|].
    split; [exact Hself | exact Hoth].
  - split; [split; [discriminate | intros [[H|H] _]; discriminate H]|].
    split; [discriminate|]; split; [intros _ _; split; reflexivity|].
    intros [H|H]; discriminate H.
  - assert (Hoth' : forall d, d <> m_cls m -> bk_get bk d = bk_get bk d) by reflexivity.
    pose proof (bind_and_set_spec bk bk m bs Eg Hoth' (fun H => H)) as Hb.
    destruct (match bind bs with inl e => (inl e, bk)
                                 | inr _ => (inr tt, bk ++ [(m_cls m, m)]) end)
      as [r bk'] eqn:Er.
    destruct Hb as [Hb1 [Hb2 Hb3]].
    split; [rewrite Hb1; split; [intros ->; split; [left|]; reflexivity | intros [_ ->]; reflexivity]|].
    split; [exact Hb2|]; split; [intros H; exfalso; exact (H eq_refl)|].
    intros _ Hu; destruct (Hb3 Hu) as [msg [-> ->]]; exists msg; split; [reflexivity|].
    split; [exact Eg | exact Hoth'].
Qed.

(** X14: [Broker.get_or_create(cls)] leaves the broker mapping [cls] to
    the manufacturer it returns: the registered one, with the broker
    unchanged, if there is one, else a new one; a second call returns the
    same manufacturer and changes nothing, and the other classes are
    untouched. *)
Theorem get_or_create_registers new_mfr bk c :
  match get_or_create new_mfr bk c with
  | (m, bk') =>
      bk_get bk' c = Some m /\ get_or_create new_mfr bk' c = (m, bk') /\
      (forall d, d <> c -> bk_get bk' d = bk_get bk d) /\
      (forall m0, bk_get bk c = Some m0 -> m = m0 /\ bk' = bk) /\
      (bk_get bk c = None -> m = new_mfr c)
  end.
Proof.
  unfold get_or_create; destruct (bk_get bk c) as [m|] eqn:E.
  - rewrite E; split; [reflexivity|split; [reflexivity|split; [reflexivity|split]]].
    + intros m0 [= ->]; split; reflexivity.
    + discriminate.
  - rewrite (bk_get_snoc_self _ _ _ E).
    split; [reflexivity|split; [reflexivity|split; [|split; [discriminate|reflexivity]]]].
    intros d Hd; exact (bk_get_snoc_other _ _ _ _ Hd).
Qed.

(** X15: [Broker.make(cls, key, inputs)] is [mfr.make(key, inputs)] on the
    manufacturer of [get_or_create(cls)], bound to the broker as
    [get_or_create] left it: wrapping [key] and [inputs] in an object spec
    never fails and passes them on unchanged. *)
Theorem bk_make_delegates py_call new_mfr fuel bk c key inputs lg :
  bk_make py_call new_mfr fuel bk c key inputs lg =
  make py_call new_mfr fuel (get_or_create new_mfr bk c).1 (Some (get_or_create new_mfr bk c).2)
    (match key with VNone => None | _ => Some key end) inputs lg.
Proof. unfold bk_make; destruct (get_or_create new_mfr bk c); reflexivity. Qed.

(** X16: [Broker.make(cls)] without key for a class the broker has no
    manufacturer of, when the new manufacturer has no default, raises
    [ValueError]; the new manufacturer stays registered. *)
Theorem bk_make_registers_on_failure py_call new_mfr fuel bk c inputs lg :
  bk_get bk c = None -> m_default (new_mfr c) = None ->
  bk_make py_call new_mfr fuel bk c VNone inputs lg =
    Some (inl ValueError, Some (bk ++ [(c, new_mfr c)]), lg).
Proof.
  intros Hb Hd; unfold bk_make, get_or_create; rewrite Hb; cbn -[make].
  unfold make; rewrite Hd; reflexivity.
Qed.

Lemma bk_make_registers_on_failure_witness :
  bk_get [] cls_B = None /\ m_default (new_empty_mfr cls_B) = None /\
  bk_make py_ret_B new_empty_mfr 10 [] cls_B VNone VNone [] =
    Some (inl ValueError, Some [(cls_B, new_empty_mfr cls_B)], []).
Proof.
  split; [reflexivity|split; [reflexivity|]].
  exact (bk_make_registers_on_failure py_ret_B new_empty_mfr 10 [] cls_B VNone [] eq_refl eq_refl).
Defined.

(** X17: [Manufacturer.merge_all(mfr_dict)] called without all of
    [override], [ignore_collision] and [sep] raises [TypeError] (they are
    passed on to [_validate_merge], which has no defaults for them) as
    soon as there is a manufacturer to merge, and merges nothing. *)
Theorem merge_all_missing_option m d o i s :
  (o = None \/ i = None \/ s = None) -> merge_pairs d <> [] ->
  exists msg, merge_all m d o i s = (inl (TypeError msg), m).
Proof.
  intros Ho Hp; unfold merge_all; destruct (merge_pairs d) as [|p ps]; [contradiction|].
  destruct Ho as [ Ho | [ Ho | Ho ] ]; subst; [ | destruct o | destruct o, i ]; eexists; reflexivity.
Qed.

Lemma merge_all_missing_option_witness :
  (Some false = None \/ @None bool = None \/ @None string = None) /\
  merge_pairs [(Some "r"%string, [mfr_of ∅ {[ "f" := fct_plain 1 ]}])] <> [] /\
  exists msg, merge_all (mfr_of ∅ ∅) [(Some "r"%string, [mfr_of ∅ {[ "f" := fct_plain 1 ]}])]
                (Some false) None None = (inl (TypeError msg), mfr_of ∅ ∅).
Proof.
  assert (H1 : Some false = None \/ @None bool = None \/ @None string = None) by (right; left; reflexivity).
  assert (H2 : merge_pairs [(Some "r"%string, [mfr_of ∅ {[ "f" := fct_plain 1 ]}])] <> [])
    by discriminate.
  split; [exact H1 | split; [exact H2 | exact (merge_all_missing_option _ _ _ _ _ H1 H2)]].
Defined.

(** X18: [Manufacturer.merge_all] validates every manufacturer before
    merging any: when one of them fails [_validate_merge], an exception is
    raised and the manufacturer is left unchanged. *)
Theorem merge_all_validates_first m d o i s p :
  In p (merge_pairs d) -> validate_merge m p.2 p.1 o i s <> None ->
  exists e, merge_all m d (Some o) (Some i) (Some s) = (inl e, m).
Proof.
  intros Hp Hv; unfold merge_all.
  destruct (first_error _ _) as [e|] eqn:E; [eexists; reflexivity|].
  exfalso; apply Hv; exact (proj1 (first_error_None _ _) E p Hp).
Qed.

Lemma merge_all_validates_first_witness :
  In (None, mfr_of ∅ {[ "f" := fct_plain 2 ]})
     (merge_pairs [(None, [mfr_of ∅ {[ "g" := fct_plain 3 ]}; mfr_of ∅ {[ "f" := fct_plain 2 ]}])]) /\
  validate_merge (mfr_of ∅ {[ "f" := fct_plain 1 ]}) (mfr_of ∅ {[ "f" := fct_plain 2 ]}) None
    false false "/" <> None /\
  exists e, merge_all (mfr_of ∅ {[ "f" := fct_plain 1 ]})
              [(None, [mfr_of ∅ {[ "g" := fct_plain 3 ]}; mfr_of ∅ {[ "f" := fct_plain 2 ]}])]
              (Some false) (Some false) (Some "/"%string) =
            (inl e, mfr_of ∅ {[ "f" := fct_plain 1 ]}).
Proof.
  assert (H1 : In (None, mfr_of ∅ {[ "f" := fct_plain 2 ]})
     (merge_pairs [(None, [mfr_of ∅ {[ "g" := fct_plain 3 ]}; mfr_of ∅ {[ "f" := fct_plain 2 ]}])])).
  { right; left; reflexivity. }
  assert (H2 : validate_merge (mfr_of ∅ {[ "f" := fct_plain 1 ]}) (mfr_of ∅ {[ "f" := fct_plain 2 ]}) None
                 false false "/" <> None).
  { intros H; vm_compute in H; discriminate. }
  split; [exact H1 | split; [exact H2 | exact (merge_all_validates_first _ _ _ _ _ _ H1 H2)]].
Defined.

(** X19: the three manifest formats of a dict type spec, [{k: v, ...}],
    [[[k, v], ...]] and [[{"key": k, "value": v}, ...]], give the same
    items to build. *)
Theorem dict_manifest_formats ks vs (kvs : list (pyval * pyval)) :
  TypeSpecs.parse_manifest (TSDict ks vs) (VList (map (fun kv => VList [kv.1; kv.2]) kvs)) =
    TypeSpecs.parse_manifest (TSDict ks vs) (VDict kvs) /\
  TypeSpecs.parse_manifest (TSDict ks vs)
    (VList (map (fun kv => VDict [(VStr "key", kv.1); (VStr "value", kv.2)]) kvs)) =
    TypeSpecs.parse_manifest (TSDict ks vs) (VDict kvs).
Proof.
  cbn [TypeSpecs.parse_manifest]; rewrite dict_pairs_tuples; split.
  - induction kvs as [|[k v] kvs IH]; [reflexivity|].
    cbn [map TypeSpecs.dict_pairs fst snd] in *.
    destruct (TypeSpecs.dict_pairs ks vs _); injection IH as -> ->; reflexivity.
  - induction kvs as [|[k v] kvs IH]; [reflexivity|].
    cbn [map TypeSpecs.dict_pairs fst snd] in *.
    destruct (TypeSpecs.dict_pairs ks vs _); injection IH as -> ->; reflexivity.
Qed.
